(** * all_construct: every way to build a target string from a word bank

    Shallow embedding of [dynamic_programming/all_construct.py] and the
    properties of its dynamic-programming table. *)

From Stdlib Require Import Ascii String.
From stdpp Require Import gmap strings list fin_maps.

#[local] Set Warnings "-clear-no-such-hyp".

(** ** Python values *)

(** A Python [str] is an immutable sequence of characters; slicing,
    concatenation and [len] are those of lists.  Only the equality of
    characters matters to the function, not what a character is. *)
Abbreviation str := (list ascii).

Definition py (s : string) : str := list_ascii_of_string s.

(** The values the two arguments of [all_construct] are called with:
    strings and lists, and [None], Booleans and integers, which are neither
    strings nor iterable. *)
#[warnings="-register-all"]
Inductive pyval : Type :=
| PyNone
| PyBool (b : bool)
| PyInt (z : Z)
| PyStr (s : str)
| PyList (xs : list pyval).

(** The exceptions that can leave the function: the two raised by the
    validation, and [IndexError] for a table access out of range. *)
Inductive exn : Type := TypeError | ValueError | IndexError.

Inductive result (A : Type) : Type :=
| Ok (a : A)
| Raise (e : exn).
Arguments Ok {A} a.
Arguments Raise {A} e.

#[global] Instance result_ret : MRet result := λ A a, Ok a.
#[global] Instance result_bind : MBind result := λ A B f m,
  match m with Ok a => f a | Raise e => Raise e end.

(** [bool(v)]: the truth value Python gives to [v]. *)
Definition truthy (v : pyval) : bool :=
  match v with
  | PyNone => false
  | PyBool b => b
  | PyInt z => negb (z =? 0)%Z
  | PyStr s => negb (bool_decide (s = []))
  | PyList xs => negb (bool_decide (length xs = 0))
  end.

(** [isinstance(v, str)] *)
Definition is_str (v : pyval) : bool :=
  match v with PyStr _ => true | _ => false end.

(** [for x in v]: lists give their elements, strings their characters as
    one-character strings; the other values are not iterable. *)
Definition py_iter (v : pyval) : result (list pyval) :=
  match v with
  | PyList xs => Ok xs
  | PyStr s => Ok ((λ c, PyStr [c]) <$> s)
  | _ => Raise TypeError
  end.

Definition as_str (v : pyval) : option str :=
  match v with PyStr s => Some s | _ => None end.

(** [s[a:b]] for indices [0 <= a <= b]; a slice never raises, it is cut at
    the end of [s]. *)
Definition slice (s : str) (a b : nat) : str := take (b - a) (drop a s).

(** ** The position index: [word_positions : dict[int, set[str]]] *)

(** A [set[str]] is kept as the list of its distinct elements in the order
    they were added. *)
Definition set_add (w : str) (s : list str) : list str :=
  if decide (w ∈ s) then s else s ++ [w].

(** [word_positions.setdefault(i, set()).add(word)] *)
Definition setdefault_add (wp : gmap nat (list str)) (i : nat) (word : str)
  : gmap nat (list str) :=
  <[i := set_add word (default [] (wp !! i))]> wp.

(** [range(target_length - word_length + 1)]: empty when the word is longer
    than the target. *)
Definition scan_offsets (target word : str) : list nat :=
  seq 0 (length target + 1 - length word).

(** The body of [for word in word_bank] of the preprocessing pass.
    ([max_word_length], which the source also updates there, is never
    read.) *)
Definition index_word (target : str) (wp : gmap nat (list str)) (word : str)
  : gmap nat (list str) :=
  foldl (λ wp i,
           if decide (slice target i (i + length word) = word)
           then setdefault_add wp i word else wp)
        wp (scan_offsets target word).

Definition build_word_positions (target : str) (word_bank : list str)
  : gmap nat (list str) :=
  foldl (index_word target) ∅ word_bank.

(** ** The table [dp_table : list[list[list[str]]]] *)

Abbreviation combination := (list str).
Abbreviation table := (list (list combination)).

(** [[[] for _ in range(target_length + 1)]] followed by
    [dp_table[0] = [[]]]. *)
Definition init_table (target_length : nat) : table :=
  <[0 := [[]]]> (replicate (target_length + 1) []).

(** [dp_table[k]], which raises [IndexError] past the end. *)
Definition table_get (dp : table) (k : nat) : result (list combination) :=
  match dp !! k with
  | Some slot => Ok slot
  | None => Raise IndexError
  end.

(** [dp_table[k].extend(new)] *)
Definition table_extend (dp : table) (k : nat) (new : list combination)
  : result table :=
  old ← table_get dp k;
  Ok (<[k := old ++ new]> dp).

(** A [for] loop whose body may raise. *)
Fixpoint for_each {S A : Type} (body : S → A → result S) (xs : list A) (s : S)
  : result S :=
  match xs with
  | [] => Ok s
  | x :: xs' => s' ← body s x; for_each body xs' s'
  end.

(** The body of [for word in word_positions.get(current_pos, ())]: every
    combination of the current slot, with [word] put in front, is added to
    the slot at [end_pos].  It runs after the validation, so [word] is not
    empty and [end_pos] differs from [current_pos]: the slot that is read
    is not the one that grows. *)
Definition fill_word (current_pos : nat) (dp : table) (word : str)
  : result table :=
  let end_pos := current_pos + length word in
  combos ← table_get dp current_pos;
  table_extend dp end_pos ((λ combination, word :: combination) <$> combos).

Section all_construct.

(** The order in which Python iterates over a [set] is not fixed by the
    language (for strings it changes with the hash seed of the process):
    [set_iter] is that order, any enumeration of the set's elements. *)
Variable set_iter : list str → list str.

(** [word_positions.get(current_pos, ())] as the sequence the loop walks. *)
Definition words_at (wp : gmap nat (list str)) (current_pos : nat) : list str :=
  match wp !! current_pos with
  | Some s => set_iter s
  | None => []
  end.

(** The body of [for current_pos in range(target_length)]. *)
Definition fill_pos (wp : gmap nat (list str)) (dp : table) (current_pos : nat)
  : result table :=
  combos ← table_get dp current_pos;
  match combos with
  | [] => Ok dp
  | _ => for_each (fill_word current_pos) (words_at wp current_pos) dp
  end.

(** The table after the positions [positions] have been processed. *)
Definition fill_table (wp : gmap nat (list str)) (positions : list nat)
  (dp : table) : result table :=
  for_each (fill_pos wp) positions dp.

(** The function past its validation, on a target and a bank of strings:
    the index, the table, and the last slot with every combination
    reversed.  The combinations are lists of their own, none is reversed
    twice. *)
Definition construct (target : str) (word_bank : list str)
  : result (list combination) :=
  let word_positions := build_word_positions target word_bank in
  let target_length := length target in
  dp_table ← fill_table word_positions (seq 0 target_length)
                        (init_table target_length);
  combinations ← table_get dp_table target_length;
  Ok (fmap (M:=list) reverse combinations).

Definition all_construct (target word_bank : pyval)
  : result (list combination) :=
  match target with
  | PyStr target =>
      if negb (truthy (PyStr target)) then Raise ValueError else
      let word_bank := if truthy word_bank then word_bank else PyList [] in
      words ← py_iter word_bank;
      if negb (forallb is_str words) then Raise TypeError else
      if existsb (λ word, negb (truthy word)) words then Raise ValueError else
      construct target (omap as_str words)
  | _ => Raise TypeError
  end.

End all_construct.

(** The call [all_construct(target, word_bank)] on a string and a list of
    strings. *)
Definition call (set_iter : list str → list str) (target : str)
  (word_bank : list str) : result (list combination) :=
  all_construct set_iter (PyStr target) (PyList (PyStr <$> word_bank)).

(** ** Notions the properties are stated with *)

(** [word] occurs in [target] at offset [i]. *)
Definition matches_at (target : str) (i : nat) (word : str) : Prop :=
  i + length word ≤ length target ∧ slice target i (i + length word) = word.

(** What position [p] adds to slot [k] when the words found at [p] are
    [words]: the combinations of slot [p], each with [target[p:k]] in
    front, when that slice is one of the words. *)
Definition new_at (target : str) (words : list str) (p k : nat)
  (combos : list combination) : list combination :=
  if decide (p < k ∧ slice target p k ∈ words)
  then (λ combination, slice target p k :: combination) <$> combos
  else [].

(** Slot [k] once the positions below [c] have been processed. *)
Fixpoint slot_after (target : str) (bank : list str) (c k : nat)
  : list combination :=
  match c with
  | 0 => if decide (k = 0) then [[]] else []
  | S c' =>
      slot_after target bank c' k
      ++ new_at target bank c' k (slot_after target bank c' c')
  end.

(** Slot [k] while position [c] is processed, the words [done] being
    through. *)
Definition slot_during (target : str) (bank done : list str) (c k : nat)
  : list combination :=
  slot_after target bank c k
  ++ new_at target done c k (slot_after target bank c c).

(** The whole table at these two moments. *)
Definition table_after (target : str) (bank : list str) (c : nat) : table :=
  slot_after target bank c <$> seq 0 (length target + 1).

Definition table_during (target : str) (bank done : list str) (c : nat)
  : table :=
  slot_during target bank done c <$> seq 0 (length target + 1).

(** What the validation and the loops read from the bank: the iteration
    of [word_bank or []].  A list gives its elements, [None] and every
    other falsy value nothing, a non-empty string its characters; a truthy
    value that cannot be iterated raises [TypeError]. *)
Definition bank_elements (word_bank : pyval) : result (list pyval) :=
  py_iter (if truthy word_bank then word_bank else PyList []).

(** A target the validation accepts: a string that is not empty. *)
Definition valid_target (target : str) : Prop := target ≠ [].

(** A bank the validation accepts: no word of it is empty. *)
Definition valid_bank (word_bank : list str) : Prop :=
  Forall (λ w, w ≠ []) word_bank.

(** [set_iter] walks every set through its elements, each one once. *)
Definition set_order (set_iter : list str → list str) : Prop :=
  ∀ s, set_iter s ≡ₚ s.

(** The tables the loop goes through: the one at the head of the
    iteration for position [c] (and the final one, [c = len(target)]),
    and, inside that iteration, the one after each word [ws] of the
    position's words has extended its slot. *)
Inductive loop_point (set_iter : list str → list str) (target : str)
  (word_bank : list str) : table → Prop :=
| at_position (c : nat) (dp : table) :
    c ≤ length target →
    fill_table set_iter (build_word_positions target word_bank) (seq 0 c)
      (init_table (length target)) = Ok dp →
    loop_point set_iter target word_bank dp
| at_word (c : nat) (before : table) (ws rest : list str) (dp : table) :
    c < length target →
    fill_table set_iter (build_word_positions target word_bank) (seq 0 c)
      (init_table (length target)) = Ok before →
    table_get before c ≠ Ok [] →
    words_at set_iter (build_word_positions target word_bank) c = ws ++ rest →
    for_each (fill_word c) ws before = Ok dp →
    loop_point set_iter target word_bank dp.

(** Where [w] first occurs in [words]. *)
Fixpoint index_of (w : str) (words : list str) : nat :=
  match words with
  | [] => 0
  | x :: words' => if decide (x = w) then 0 else S (index_of w words')
  end.

(** Where the first word of a combination first occurs in the bank. *)
Definition first_word_occurrence (word_bank : list str) (D : combination)
  : nat :=
  match D with
  | [] => 0
  | w :: _ => index_of w word_bank
  end.

(** The reading of the specification: the combinations come in increasing
    order of their first word's occurrence in the bank. *)
Definition in_first_word_order (word_bank : list str)
  (r : list combination) : Prop :=
  ∀ i j Di Dj, i ≤ j → r !! i = Some Di → r !! j = Some Dj →
    first_word_occurrence word_bank Di ≤ first_word_occurrence word_bank Dj.

(** The offset in the target at which the last word of a combination that
    spells the target starts. *)
Definition last_word_start (target : str) (D : combination) : nat :=
  length target - length (default [] (last D)).

(** The combinations come in increasing order of the offset at which
    their last word starts. *)
Definition in_last_word_order (target : str) (r : list combination) : Prop :=
  ∀ i j Di Dj, i ≤ j → r !! i = Some Di → r !! j = Some Dj →
    last_word_start target Di ≤ last_word_start target Dj.

(** The three calls of the [__main__] block, whose results it prints one
    after the other. *)
Definition main (set_iter : list str → list str)
  : list (result (list combination)) :=
  [ call set_iter (py "jwajalapa")
      [py "jwa"; py "j"; py "w"; py "a"; py "la"; py "lapa"];
    call set_iter (py "rajamati")
      [py "s"; py "raj"; py "amat"; py "raja"; py "ma"; py "i"; py "t"];
    call set_iter (py "hexagonosaurus")
      [py "h"; py "ex"; py "hex"; py "ag"; py "ago"; py "ru"; py "auru";
       py "rus"; py "go"; py "no"; py "o"; py "s"] ].

(** ** The examples of the docstring *)

Example doctest_hello :
  call id (py "hello") [py "he"; py "l"; py "o"]
  = Ok [[py "he"; py "l"; py "l"; py "o"]].
Proof. vm_compute. reflexivity. Qed.

Example doctest_purple :
  call reverse (py "purple") [py "purp"; py "p"; py "ur"; py "le"; py "purpl"]
  = Ok [[py "purp"; py "le"]; [py "p"; py "ur"; py "p"; py "le"]].
Proof. vm_compute. reflexivity. Qed.

Example doctest_impossible :
  call id (py "impossible") [py "imp"; py "possible"] = Ok [].
Proof. vm_compute. reflexivity. Qed.

(** ** Loops and slices *)

Lemma bind_Ok {A B : Type} (m : result A) (f : A → result B) (b : B) :
  m ≫= f = Ok b ↔ ∃ a, m = Ok a ∧ f a = Ok b.
Proof.
  destruct m as [a|e]; simpl; split.
  - intros H. by exists a.
  - by intros (a' & [= ->] & H).
  - done.
  - by intros (a' & [=] & _).
Qed.

Lemma for_each_app {S A : Type} (body : S → A → result S) (xs ys : list A) (s : S) :
  for_each body (xs ++ ys) s = for_each body xs s ≫= for_each body ys.
Proof.
  revert s. induction xs as [|x xs IH]; intros s; simpl; [done|].
  destruct (body s x) as [s'|e]; simpl; [apply IH | done].
Qed.

Lemma for_each_snoc {S A : Type} (body : S → A → result S) (xs : list A) (x : A) (s : S) :
  for_each body (xs ++ [x]) s = for_each body xs s ≫= λ s', body s' x.
Proof.
  rewrite for_each_app. destruct (for_each body xs s) as [s'|e]; simpl; [|done].
  by destruct (body s' x).
Qed.

Lemma slice_length (s : str) (a b : nat) :
  a ≤ b → b ≤ length s → length (slice s a b) = b - a.
Proof.
  intros Hab Hb. unfold slice. rewrite length_take, length_drop. lia.
Qed.

Lemma take_slice (s : str) (a b : nat) :
  a ≤ b → take a s ++ slice s a b = take b s.
Proof.
  intros Hab. unfold slice. rewrite take_take_drop. f_equal. lia.
Qed.

Lemma slice_of_prefix (s u w : str) :
  take (length u + length w) s = u ++ w →
  slice s (length u) (length u + length w) = w.
Proof.
  intros H. unfold slice.
  replace (length u + length w - length u) with (length w) by lia.
  rewrite take_drop_commute, H. by rewrite drop_app_length.
Qed.

(** ** What the position index holds *)

Lemma elem_of_scan_offsets (target word : str) (i : nat) :
  i ∈ scan_offsets target word ↔ i + length word ≤ length target.
Proof. unfold scan_offsets. rewrite elem_of_seq. lia. Qed.

Lemma elem_of_set_add (w w' : str) (s : list str) :
  w' ∈ set_add w s ↔ w' ∈ s ∨ w' = w.
Proof.
  unfold set_add. case_decide as Hin.
  - split; [by left | by intros [?| ->]].
  - rewrite elem_of_app, list_elem_of_singleton. done.
Qed.

Lemma NoDup_set_add (w : str) (s : list str) : NoDup s → NoDup (set_add w s).
Proof.
  intros Hs. unfold set_add. case_decide as Hin; [done|].
  apply NoDup_app. split_and!; [done| |apply NoDup_singleton].
  intros x Hx ->%list_elem_of_singleton. done.
Qed.

Lemma setdefault_add_lookup (wp : gmap nat (list str)) (i j : nat) (w w' : str) :
  w' ∈ default [] (setdefault_add wp i w !! j)
  ↔ w' ∈ default [] (wp !! j) ∨ (j = i ∧ w' = w).
Proof.
  unfold setdefault_add. destruct (decide (i = j)) as [->|Hne].
  - rewrite lookup_insert_eq. simpl. rewrite elem_of_set_add. naive_solver.
  - rewrite lookup_insert_ne by done. naive_solver.
Qed.

Lemma index_word_lookup (target word : str) (os : list nat)
  (wp : gmap nat (list str)) (j : nat) (w : str) :
  w ∈ default [] (foldl (λ wp i,
         if decide (slice target i (i + length word) = word)
         then setdefault_add wp i word else wp) wp os !! j)
  ↔ w ∈ default [] (wp !! j)
    ∨ (w = word ∧ j ∈ os ∧ slice target j (j + length word) = word).
Proof.
  revert wp. induction os as [|i os IH]; intros wp; simpl.
  - split; [by left|]. intros [?|(_ & []%elem_of_nil & _)]. done.
  - rewrite IH. case_decide as Hm.
    + rewrite setdefault_add_lookup, elem_of_cons.
      split; [|naive_solver]. intros [[Hin|[-> ->]]|H]; naive_solver.
    + rewrite elem_of_cons. naive_solver.
Qed.

Lemma index_word_NoDup (target word : str) (os : list nat)
  (wp : gmap nat (list str)) :
  (∀ j, NoDup (default [] (wp !! j))) →
  ∀ j, NoDup (default [] (foldl (λ wp i,
         if decide (slice target i (i + length word) = word)
         then setdefault_add wp i word else wp) wp os !! j)).
Proof.
  revert wp. induction os as [|i os IH]; intros wp Hwp; simpl; [done|].
  apply IH. intros j. case_decide; [|done].
  unfold setdefault_add. destruct (decide (i = j)) as [->|Hne].
  - rewrite lookup_insert_eq. simpl. apply NoDup_set_add, Hwp.
  - rewrite lookup_insert_ne by done. apply Hwp.
Qed.

Lemma build_from_lookup (target : str) (bank : list str)
  (wp : gmap nat (list str)) (j : nat) (w : str) :
  w ∈ default [] (foldl (index_word target) wp bank !! j)
  ↔ w ∈ default [] (wp !! j) ∨ (w ∈ bank ∧ matches_at target j w).
Proof.
  revert wp. induction bank as [|word bank IH]; intros wp; simpl.
  - split; [by left|]. intros [?|([]%elem_of_nil & _)]. done.
  - rewrite IH. unfold index_word. rewrite index_word_lookup.
    rewrite elem_of_scan_offsets, elem_of_cons. unfold matches_at.
    naive_solver.
Qed.

(** The set at offset [j] holds the bank's words that occur there. *)
Lemma build_word_positions_lookup (target : str) (bank : list str)
  (j : nat) (w : str) :
  w ∈ default [] (build_word_positions target bank !! j)
  ↔ w ∈ bank ∧ matches_at target j w.
Proof.
  unfold build_word_positions. rewrite build_from_lookup, lookup_empty. simpl.
  split; [|by right]. intros [[]%elem_of_nil|?]. done.
Qed.

Lemma build_word_positions_NoDup (target : str) (bank : list str) (j : nat) :
  NoDup (default [] (build_word_positions target bank !! j)).
Proof.
  unfold build_word_positions.
  assert (∀ wp : gmap nat (list str),
    (∀ j, NoDup (default [] (wp !! j))) →
    ∀ j, NoDup (default [] (foldl (index_word target) wp bank !! j))) as Hgen.
  { induction bank as [|word bank IH]; intros wp Hwp; simpl; [done|].
    apply IH. unfold index_word. by apply index_word_NoDup. }
  apply Hgen. intros j'. rewrite lookup_empty. apply NoDup_nil_2.
Qed.

(** ** The table in closed form *)

Lemma lookup_fmap_seq {B : Type} (f : nat → B) (m k : nat) :
  k < m → (f <$> seq 0 m) !! k = Some (f k).
Proof. intros Hk. by rewrite list_lookup_fmap, lookup_seq_lt. Qed.

Lemma insert_fmap_seq {B : Type} (f g : nat → B) (m k : nat) :
  (∀ i, i < m → i ≠ k → f i = g i) →
  <[k := g k]> (f <$> seq 0 m) = g <$> seq 0 m.
Proof.
  intros Hfg. apply list_eq. intros i.
  destruct (decide (i < m)) as [Hi|Hi].
  - destruct (decide (k = i)) as [->|Hne].
    + rewrite list_lookup_insert_eq by (by rewrite length_fmap, length_seq).
      by rewrite lookup_fmap_seq.
    + rewrite list_lookup_insert_ne by done.
      rewrite !lookup_fmap_seq by done. f_equal. apply Hfg; [done|congruence].
  - rewrite !(proj2 (lookup_ge_None _ _)); [done| |].
    + rewrite length_fmap, length_seq. lia.
    + rewrite length_insert, length_fmap, length_seq. lia.
Qed.

Lemma table_get_fmap_seq (f : nat → list combination) (m k : nat) :
  k < m → table_get (f <$> seq 0 m) k = Ok (f k).
Proof. intros Hk. unfold table_get. by rewrite lookup_fmap_seq. Qed.

Lemma table_get_after (target : str) (bank : list str) (c k : nat) :
  k ≤ length target →
  table_get (table_after target bank c) k = Ok (slot_after target bank c k).
Proof. intros Hk. unfold table_after. apply table_get_fmap_seq. lia. Qed.

Lemma new_at_nil (target : str) (words : list str) (p k : nat) :
  new_at target words p k [] = [].
Proof. unfold new_at. by case_decide. Qed.

Lemma new_at_none (target : str) (p k : nat) (combos : list combination) :
  new_at target [] p k combos = [].
Proof.
  unfold new_at. case_decide as H; [|done]. by destruct H as [_ ?%elem_of_nil].
Qed.

Lemma new_at_ext (target : str) (ws1 ws2 : list str) (p k : nat)
  (combos : list combination) :
  (p < k → slice target p k ∈ ws1 ↔ slice target p k ∈ ws2) →
  new_at target ws1 p k combos = new_at target ws2 p k combos.
Proof. intros H. unfold new_at. apply decide_ext. naive_solver. Qed.

Lemma slot_after_ext (target : str) (bank1 bank2 : list str) (c k : nat) :
  (∀ w, w ∈ bank1 ↔ w ∈ bank2) →
  slot_after target bank1 c k = slot_after target bank2 c k.
Proof.
  intros Hsame. revert k. induction c as [|c IH]; intros k; simpl; [done|].
  rewrite !IH. f_equal. by apply new_at_ext.
Qed.

Lemma init_table_after (target : str) (bank : list str) :
  init_table (length target) = table_after target bank 0.
Proof.
  unfold init_table, table_after.
  transitivity (<[0 := slot_after target bank 0 0]>
                  ((λ _, []) <$> seq 0 (length target + 1))).
  - simpl. f_equal. generalize (length target + 1). intros m. generalize 0.
    induction m as [|m IH]; intros j; simpl; [done|]. by rewrite <-IH.
  - apply insert_fmap_seq. intros i _ Hi. simpl. by rewrite decide_False.
Qed.

Lemma table_during_nil (target : str) (bank : list str) (c : nat) :
  table_during target bank [] c = table_after target bank c.
Proof.
  unfold table_during, table_after, slot_during. apply list_fmap_ext.
  intros _ k _. by rewrite new_at_none, app_nil_r.
Qed.

Section fill.

Variable target : str.
Variable bank : list str.
Hypothesis bank_nonempty : Forall (λ w, w ≠ []) bank.

Variable set_iter : list str → list str.
Hypothesis set_iter_perm : ∀ s, set_iter s ≡ₚ s.

Lemma words_at_perm (c : nat) :
  words_at set_iter (build_word_positions target bank) c
  ≡ₚ default [] (build_word_positions target bank !! c).
Proof.
  unfold words_at. destruct (build_word_positions target bank !! c); simpl.
  - apply set_iter_perm.
  - done.
Qed.

Lemma elem_of_words_at (c : nat) (w : str) :
  w ∈ words_at set_iter (build_word_positions target bank) c
  ↔ w ∈ bank ∧ matches_at target c w.
Proof. rewrite words_at_perm. apply build_word_positions_lookup. Qed.

Lemma NoDup_words_at (c : nat) :
  NoDup (words_at set_iter (build_word_positions target bank) c).
Proof. rewrite words_at_perm. apply build_word_positions_NoDup. Qed.

(** One word more: only the slot at [c + len(w)] changes. *)
Lemma fill_word_during (c : nat) (done : list str) (w : str) :
  w ∉ done → w ≠ [] → matches_at target c w →
  fill_word c (table_during target bank done c) w
  = Ok (table_during target bank (done ++ [w]) c).
Proof.
  intros Hnew Hne [Hlen Hslice].
  assert (0 < length w) as Hpos by (destruct w; [done | simpl; lia]).
  unfold fill_word, table_during.
  rewrite table_get_fmap_seq by lia. simpl.
  unfold table_extend. rewrite table_get_fmap_seq by lia. simpl. f_equal.
  assert (slot_during target bank done c c = slot_after target bank c c) as ->.
  { unfold slot_during, new_at. rewrite decide_False by lia. apply app_nil_r. }
  assert (slot_during target bank done c (c + length w)
          ++ ((λ combination, w :: combination) <$> slot_after target bank c c)
          = slot_during target bank (done ++ [w]) c (c + length w)) as ->.
  { unfold slot_during, new_at. rewrite Hslice.
    rewrite decide_False by naive_solver.
    rewrite decide_True; [by rewrite app_nil_r|].
    split; [lia|]. apply elem_of_app. right. by apply list_elem_of_singleton. }
  apply insert_fmap_seq. intros k Hk Hother.
  unfold slot_during. f_equal. apply new_at_ext. intros Hck.
  rewrite elem_of_app, list_elem_of_singleton.
  split; [by left|]. intros [?| Heq]; [done|]. exfalso.
  apply (f_equal length) in Heq. rewrite slice_length in Heq by lia. lia.
Qed.

Lemma fill_words_during (c : nat) (ws done : list str) :
  NoDup (done ++ ws) →
  (∀ w, w ∈ ws → w ≠ [] ∧ matches_at target c w) →
  for_each (fill_word c) ws (table_during target bank done c)
  = Ok (table_during target bank (done ++ ws) c).
Proof.
  revert done. induction ws as [|w ws IH]; intros done Hnd Hws; simpl.
  - by rewrite app_nil_r.
  - destruct (Hws w) as [Hne Hm]; [by left|].
    rewrite fill_word_during; [simpl|..|done|done].
    + rewrite (cons_middle w done ws), app_assoc. apply IH.
      * by rewrite <-app_assoc.
      * intros w' Hw'. apply Hws. by right.
    + apply NoDup_app in Hnd as (_ & Hdisj & _). intros Hin.
      apply (Hdisj w Hin). by left.
Qed.

Lemma bank_word_nonempty (w : str) : w ∈ bank → w ≠ [].
Proof. intros Hw. by apply (proj1 (Forall_forall _ _) bank_nonempty). Qed.

(** After the words of position [c], the table is that of [c + 1]. *)
Lemma table_during_all (c : nat) :
  table_during target bank
    (words_at set_iter (build_word_positions target bank) c) c
  = table_after target bank (S c).
Proof.
  unfold table_during, table_after. apply list_fmap_ext.
  intros _ k Hk%list_elem_of_lookup_2%elem_of_seq. simpl.
  unfold slot_during. f_equal. apply new_at_ext. intros Hck.
  rewrite elem_of_words_at. unfold matches_at.
  rewrite slice_length by lia.
  replace (c + (k - c)) with k by lia. naive_solver lia.
Qed.

Lemma fill_pos_after (c : nat) :
  c < length target →
  fill_pos set_iter (build_word_positions target bank)
    (table_after target bank c) c
  = Ok (table_after target bank (S c)).
Proof.
  intros Hc. unfold fill_pos.
  rewrite table_get_after by lia. simpl.
  destruct (slot_after target bank c c) as [|combo combos] eqn:Hslot.
  - f_equal. unfold table_after. apply list_fmap_ext. intros _ k _. simpl.
    by rewrite Hslot, new_at_nil, app_nil_r.
  - rewrite <-table_during_nil, fill_words_during.
    + simpl. by rewrite table_during_all.
    + simpl. apply NoDup_words_at.
    + intros w [Hw Hm]%elem_of_words_at. split; [|done].
      by apply bank_word_nonempty.
Qed.

(** The loop over the first [c] positions leaves the closed form. *)
Lemma fill_table_after (c : nat) :
  c ≤ length target →
  fill_table set_iter (build_word_positions target bank) (seq 0 c)
    (init_table (length target))
  = Ok (table_after target bank c).
Proof.
  unfold fill_table. induction c as [|c IH]; intros Hc.
  - simpl. by rewrite (init_table_after target bank).
  - rewrite seq_S, for_each_snoc, IH by lia. simpl. apply fill_pos_after. lia.
Qed.

Lemma construct_closed :
  construct set_iter target bank
  = Ok (reverse <$> slot_after target bank (length target) (length target)).
Proof.
  unfold construct. rewrite fill_table_after by done. simpl.
  by rewrite table_get_after.
Qed.

End fill.

(** ** What the slots hold *)

Section slots.

Variable target : str.
Variable bank : list str.

Lemma elem_of_new_at (words : list str) (p k : nat)
  (combos : list combination) (D : combination) :
  D ∈ new_at target words p k combos
  ↔ p < k ∧ slice target p k ∈ words
    ∧ ∃ D', D = slice target p k :: D' ∧ D' ∈ combos.
Proof.
  unfold new_at. case_decide as Hcond.
  - rewrite list_elem_of_fmap. naive_solver.
  - rewrite elem_of_nil. naive_solver.
Qed.

Lemma slot_after_zero (c : nat) : slot_after target bank c 0 = [[]].
Proof.
  induction c as [|c IH]; simpl; [done|].
  rewrite IH. unfold new_at. by rewrite decide_False by lia.
Qed.

(** Past its own position a slot no longer changes. *)
Lemma slot_after_ge (c k : nat) :
  k ≤ c → slot_after target bank c k = slot_after target bank k k.
Proof.
  induction 1 as [|c Hkc IH]; [done|]. simpl.
  rewrite IH. unfold new_at. rewrite decide_False by lia. apply app_nil_r.
Qed.

Lemma slot_after_mono (c c' k : nat) (D : combination) :
  c ≤ c' → D ∈ slot_after target bank c k → D ∈ slot_after target bank c' k.
Proof.
  induction 1 as [|c' Hcc IH]; [done|]. intros HD. simpl.
  apply elem_of_app. left. by apply IH.
Qed.

(** Every entry of slot [k] spells [target[0:k]], last word first, with
    words of the given lists only. *)
Lemma slot_during_sound (done : list str) (c k : nat) (D : combination) :
  k ≤ length target →
  D ∈ slot_during target bank done c k →
  concat (reverse D) = take k target ∧ Forall (λ w, w ∈ bank ++ done) D.
Proof.
  assert (∀ c k D, k ≤ length target → D ∈ slot_after target bank c k →
            concat (reverse D) = take k target ∧ Forall (λ w, w ∈ bank) D)
    as Hafter.
  { clear c k D. induction c as [|c IH]; intros k D Hk; simpl.
    - case_decide as Hz; [|by intros ?%elem_of_nil].
      intros ->%list_elem_of_singleton. subst k. by rewrite take_0.
    - rewrite elem_of_app, elem_of_new_at.
      intros [HD|(Hck & Hin & D' & -> & HD')]; [by apply IH|].
      destruct (IH c D') as [Hcat Hall]; [lia|done|].
      split; [|by constructor].
      rewrite reverse_cons, concat_app, Hcat. simpl. rewrite app_nil_r.
      apply take_slice. lia. }
  intros Hk. unfold slot_during. rewrite elem_of_app, elem_of_new_at.
  intros [HD|(Hck & Hin & D' & -> & HD')].
  - destruct (Hafter c k D Hk HD) as [Hcat Hall]. split; [done|].
    eapply Forall_impl; [done|]. intros w Hw. apply elem_of_app. by left.
  - destruct (Hafter c c D') as [Hcat Hall]; [lia|done|]. split.
    + rewrite reverse_cons, concat_app, Hcat. simpl. rewrite app_nil_r.
      apply take_slice. lia.
    + constructor; [apply elem_of_app; by right|].
      eapply Forall_impl; [done|]. intros w Hw. apply elem_of_app. by left.
Qed.

Lemma slot_after_sound (c k : nat) (D : combination) :
  k ≤ length target →
  D ∈ slot_after target bank c k →
  concat (reverse D) = take k target ∧ Forall (λ w, w ∈ bank) D.
Proof.
  intros Hk HD. destruct (slot_during_sound [] c k D Hk) as [Hcat Hall].
  - unfold slot_during. apply elem_of_app. by left.
  - split; [done|]. eapply Forall_impl; [done|]. simpl.
    intros w Hw. by rewrite app_nil_r in Hw.
Qed.

(** The word in front of an entry starts below the positions processed. *)
Lemma slot_after_head (c k : nat) (D : combination) :
  D ∈ slot_after target bank c k →
  (k = 0 ∧ D = []) ∨ ∃ p D', p < c ∧ p < k ∧ D = slice target p k :: D'.
Proof.
  revert k D. induction c as [|c IH]; intros k D; simpl.
  - case_decide as Hz; [|by intros ?%elem_of_nil].
    intros ->%list_elem_of_singleton. by left.
  - rewrite elem_of_app, elem_of_new_at.
    intros [HD|(Hck & Hin & D' & -> & HD')].
    + destruct (IH k D HD) as [?|(p & D' & Hp & Hpk & ->)]; [by left|].
      right. exists p, D'. split_and!; [lia|done|done].
    + right. exists c, D'. split_and!; [lia|done|done].
Qed.

Lemma slot_after_NoDup (c k : nat) :
  k ≤ length target → NoDup (slot_after target bank c k).
Proof.
  revert k. induction c as [|c IH]; intros k Hk; simpl.
  - case_decide; [apply NoDup_singleton | apply NoDup_nil_2].
  - apply NoDup_app. split_and!.
    + by apply IH.
    + intros D HD (Hck & _ & D' & -> & _)%elem_of_new_at.
      apply slot_after_head in HD as [[-> _]|(p & D'' & Hp & Hpk & Heq)].
      * lia.
      * injection Heq as Heq _. apply (f_equal length) in Heq.
        rewrite !slice_length in Heq by lia. lia.
    + unfold new_at. case_decide as Hcond; [|apply NoDup_nil_2].
      apply NoDup_fmap_2_strong; [|apply IH; lia].
      by intros D1 D2 _ _ [=].
Qed.

(** Every way of spelling [target[0:k]] with words of the bank is in
    slot [k]. *)
Lemma slot_after_complete (D : combination) (k : nat) :
  k ≤ length target →
  Forall (λ w, w ∈ bank ∧ w ≠ []) D →
  concat D = take k target →
  reverse D ∈ slot_after target bank k k.
Proof.
  revert k. induction D as [|w D IH] using rev_ind; intros k Hk Hall Hcat.
  - simpl in Hcat. apply (f_equal length) in Hcat.
    rewrite length_take_le in Hcat by done. simpl in Hcat. subst k.
    simpl. by apply list_elem_of_singleton.
  - apply Forall_app in Hall as [Hall [[Hw Hne] _]%Forall_cons].
    rewrite concat_app in Hcat. simpl in Hcat. rewrite app_nil_r in Hcat.
    assert (length (concat D) + length w = k) as Hlen.
    { apply (f_equal length) in Hcat.
      by rewrite length_app, length_take_le in Hcat. }
    assert (0 < length w) as Hpos by (destruct w; [done | simpl; lia]).
    assert (concat D = take (length (concat D)) target) as Hpre.
    { pose proof (f_equal (take (length (concat D))) Hcat) as Hcut.
      rewrite take_app_length, take_take in Hcut.
      by rewrite Nat.min_l in Hcut by lia. }
    set (p := length (concat D)) in *.
    rewrite reverse_snoc.
    apply (slot_after_mono (S p) k); [lia|]. simpl.
    apply elem_of_app. right. apply elem_of_new_at.
    assert (slice target p k = w) as Hslice.
    { subst k. apply slice_of_prefix. symmetry. exact Hcat. }
    rewrite Hslice. split_and!; [lia|done|].
    exists (reverse D). split; [done|]. apply IH; [lia|done|done].
Qed.

End slots.

(** ** Valid calls *)

Lemma set_order_id : set_order id.
Proof. intros s. reflexivity. Qed.

Lemma forallb_is_str_strs (ws : list str) :
  forallb is_str (PyStr <$> ws) = true.
Proof. induction ws as [|w ws IH]; simpl; [done|]. exact IH. Qed.

Lemma existsb_falsy_strs (ws : list str) :
  valid_bank ws → existsb (λ word, negb (truthy word)) (PyStr <$> ws) = false.
Proof.
  induction 1 as [|w ws Hw _ IH]; simpl; [done|].
  rewrite bool_decide_false by done. exact IH.
Qed.

Lemma omap_as_str_strs (ws : list str) : omap as_str (PyStr <$> ws) = ws.
Proof. induction ws as [|w ws IH]; simpl; [done|]. f_equal. exact IH. Qed.

(** On valid arguments the validation lets the call through. *)
Lemma call_valid (set_iter : list str → list str) (target : str)
  (word_bank : list str) :
  valid_target target → valid_bank word_bank →
  call set_iter target word_bank = construct set_iter target word_bank.
Proof.
  intros Ht Hwb. unfold call, all_construct. simpl.
  rewrite bool_decide_false by done. simpl.
  destruct word_bank as [|w ws]; simpl; [done|].
  pose proof (existsb_falsy_strs (w :: ws) Hwb) as Hex. simpl in Hex.
  rewrite forallb_is_str_strs, Hex. simpl.
  by rewrite omap_as_str_strs.
Qed.

Lemma call_closed (set_iter : list str → list str) (target : str)
  (word_bank : list str) :
  set_order set_iter → valid_target target → valid_bank word_bank →
  call set_iter target word_bank
  = Ok (reverse <$> slot_after target word_bank (length target) (length target)).
Proof.
  intros Hiter Ht Hwb. rewrite call_valid by done. by apply construct_closed.
Qed.

Lemma length_concat_le (D : combination) :
  Forall (λ w, w ≠ []) D → length D ≤ length (concat D).
Proof.
  induction 1 as [|w D Hw _ IH]; simpl; [done|].
  rewrite length_app. destruct w as [|a w]; [by destruct Hw|]. simpl. lia.
Qed.

Lemma length_concat_reverse (D : combination) :
  length (concat (reverse D)) = length (concat D).
Proof.
  induction D as [|w D IH]; simpl; [done|].
  rewrite reverse_cons, concat_app, !length_app, IH. simpl.
  rewrite app_nil_r. lia.
Qed.

Lemma filter_eq_absent {A : Type} `{EqDecision A} (l : list A) (x : A) :
  x ∉ l → filter (λ y, y = x) l = [].
Proof.
  induction l as [|y l IH]; intros Hx; [done|].
  apply not_elem_of_cons in Hx as [Hne Hx].
  rewrite filter_cons_False by congruence. by apply IH.
Qed.

Lemma NoDup_count {A : Type} `{EqDecision A} (l : list A) (x : A) :
  NoDup l → x ∈ l → length (filter (λ y, y = x) l) = 1.
Proof.
  induction 1 as [|y l Hy Hl IH]; intros Hx; [by apply elem_of_nil in Hx|].
  apply elem_of_cons in Hx as [->|Hx].
  - rewrite filter_cons_True by done. simpl. by rewrite filter_eq_absent.
  - rewrite filter_cons_False; [by apply IH|]. by intros ->.
Qed.

(** ** Properties of the result *)

(** What the last slot holds, read in the order of the result. *)
Lemma call_spells (set_iter : list str → list str) (target : str)
  (word_bank : list str) :
  set_order set_iter → valid_target target → valid_bank word_bank →
  ∃ r, call set_iter target word_bank = Ok r
       ∧ ∀ D, D ∈ r → concat D = target ∧ Forall (λ w, w ∈ word_bank) D.
Proof.
  intros Hiter Ht Hwb. eexists. split; [by apply call_closed|].
  intros D (D0 & -> & HD0)%list_elem_of_fmap.
  apply slot_after_sound in HD0 as [Hcat Hall]; [|done].
  split.
  - by rewrite Hcat, take_ge.
  - by apply Forall_reverse.
Qed.

(** C1, soundness: on a valid target and bank the call returns, and every
    combination of the result spells the target, in order, with words of
    the bank only. *)
Theorem all_construct_sound (set_iter : list str → list str) (target : str)
  (word_bank : list str) :
  set_order set_iter → valid_target target → valid_bank word_bank →
  ∃ r, call set_iter target word_bank = Ok r
       ∧ ∀ D, D ∈ r → concat D = target ∧ Forall (λ w, w ∈ word_bank) D.
Proof. apply call_spells. Qed.

Lemma all_construct_sound_witness :
  set_order id ∧ valid_target (py "ab") ∧ valid_bank [py "a"; py "b"; py "ab"]
  ∧ ∃ r, call id (py "ab") [py "a"; py "b"; py "ab"] = Ok r
         ∧ ∀ D, D ∈ r →
             concat D = py "ab"
             ∧ Forall (λ w, w ∈ [py "a"; py "b"; py "ab"]) D.
Proof.
  assert (set_order id) as Hiter by exact set_order_id.
  assert (valid_target (py "ab")) as Ht by done.
  assert (valid_bank [py "a"; py "b"; py "ab"]) as Hwb
    by (repeat constructor; done).
  split_and!; [done..|]. exact (all_construct_sound id _ _ Hiter Ht Hwb).
Defined.

(** C2, completeness without duplicates: every sequence of words of the
    bank that spells the target is in the result exactly once, and the
    result holds no combination twice, whatever the bank repeats. *)
Theorem all_construct_complete (set_iter : list str → list str) (target : str)
  (word_bank : list str) :
  set_order set_iter → valid_target target → valid_bank word_bank →
  ∃ r, call set_iter target word_bank = Ok r
       ∧ NoDup r
       ∧ ∀ D, Forall (λ w, w ∈ word_bank) D → concat D = target →
              D ∈ r ∧ length (filter (λ D', D' = D) r) = 1.
Proof.
  intros Hiter Ht Hwb. eexists. split; [by apply call_closed|].
  assert (NoDup (reverse <$>
            slot_after target word_bank (length target) (length target)))
    as Hnd.
  { apply NoDup_fmap_2_strong; [|by apply slot_after_NoDup].
    intros D1 D2 _ _ Heq. apply (f_equal reverse) in Heq.
    by rewrite !reverse_involutive in Heq. }
  split; [done|]. intros D Hall Hcat.
  assert (D ∈ reverse <$>
            slot_after target word_bank (length target) (length target))
    as Hin.
  { apply list_elem_of_fmap. exists (reverse D).
    split; [by rewrite reverse_involutive|].
    apply slot_after_complete; [done| |by rewrite take_ge].
    apply Forall_forall. intros w Hw. split.
    - by apply (proj1 (Forall_forall _ _) Hall).
    - apply (proj1 (Forall_forall _ _) Hwb).
      by apply (proj1 (Forall_forall _ _) Hall). }
  split; [done|]. by apply NoDup_count.
Qed.

Lemma all_construct_complete_witness :
  set_order reverse ∧ valid_target (py "aa")
  ∧ valid_bank [py "a"; py "aa"; py "a"]
  ∧ ∃ r, call reverse (py "aa") [py "a"; py "aa"; py "a"] = Ok r
         ∧ NoDup r
         ∧ ∀ D, Forall (λ w, w ∈ [py "a"; py "aa"; py "a"]) D →
                concat D = py "aa" →
                D ∈ r ∧ length (filter (λ D', D' = D) r) = 1.
Proof.
  assert (set_order reverse) as Hiter by (intros s; apply reverse_Permutation).
  assert (valid_target (py "aa")) as Ht by done.
  assert (valid_bank [py "a"; py "aa"; py "a"]) as Hwb
    by (repeat constructor; done).
  split_and!; [done..|]. exact (all_construct_complete reverse _ _ Hiter Ht Hwb).
Defined.

(** C4, an unconstructible target gives the empty list: when no sequence
    of words of the bank spells the target the call returns [[]], no
    error; so it does for the empty bank. *)
Theorem all_construct_unconstructible (set_iter : list str → list str)
  (target : str) (word_bank : list str) :
  set_order set_iter → valid_target target → valid_bank word_bank →
  ((∀ D, Forall (λ w, w ∈ word_bank) D → concat D ≠ target) →
   call set_iter target word_bank = Ok [])
  ∧ call set_iter target [] = Ok [].
Proof.
  intros Hiter Ht Hwb.
  assert (∀ wb, valid_bank wb →
            (∀ D, Forall (λ w, w ∈ wb) D → concat D ≠ target) →
            call set_iter target wb = Ok []) as Hnone.
  { intros wb Hv Hno.
    destruct (call_spells set_iter target wb) as (r & -> & Hr);
      [done..|].
    destruct r as [|D r]; [done|]. exfalso.
    destruct (Hr D) as [Hcat Hall]; [by left|]. by apply (Hno D). }
  split; [by apply Hnone|]. apply Hnone; [by constructor|].
  intros D HD Hcat. destruct D as [|w D]; [by symmetry in Hcat|].
  apply Forall_cons in HD as [[]%elem_of_nil _].
Qed.

Lemma all_construct_unconstructible_witness :
  set_order id ∧ valid_target (py "impossible")
  ∧ valid_bank [py "imp"; py "possible"]
  ∧ ((∀ D, Forall (λ w, w ∈ [py "imp"; py "possible"]) D →
           concat D ≠ py "impossible") →
     call id (py "impossible") [py "imp"; py "possible"] = Ok [])
  ∧ call id (py "impossible") [] = Ok [].
Proof.
  assert (set_order id) as Hiter by exact set_order_id.
  assert (valid_target (py "impossible")) as Ht by done.
  assert (valid_bank [py "imp"; py "possible"]) as Hwb
    by (repeat constructor; done).
  split_and!; [done..| |];
    apply (all_construct_unconstructible id _ _ Hiter Ht Hwb).
Defined.

(** C10, no empty combination: every combination of the result has at
    least one word and at most as many words as the target has
    characters. *)
Theorem all_construct_sizes (set_iter : list str → list str) (target : str)
  (word_bank : list str) :
  set_order set_iter → valid_target target → valid_bank word_bank →
  ∃ r, call set_iter target word_bank = Ok r
       ∧ ∀ D, D ∈ r → 1 ≤ length D ≤ length target.
Proof.
  intros Hiter Ht Hwb.
  destruct (call_spells set_iter target word_bank)
    as (r & Hcall & Hr); [done..|].
  exists r. split; [done|]. intros D [Hcat Hall]%Hr. split.
  - destruct D as [|w D]; [by symmetry in Hcat | simpl; lia].
  - rewrite <-Hcat. apply length_concat_le.
    eapply Forall_impl; [done|]. simpl. intros w Hw.
    by apply (proj1 (Forall_forall _ _) Hwb).
Qed.

Lemma all_construct_sizes_witness :
  set_order id ∧ valid_target (py "aaa") ∧ valid_bank [py "a"; py "aa"]
  ∧ ∃ r, call id (py "aaa") [py "a"; py "aa"] = Ok r
         ∧ ∀ D, D ∈ r → 1 ≤ length D ≤ length (py "aaa").
Proof.
  assert (set_order id) as Hiter by exact set_order_id.
  assert (valid_target (py "aaa")) as Ht by done.
  assert (valid_bank [py "a"; py "aa"]) as Hwb by (repeat constructor; done).
  split_and!; [done..|]. exact (all_construct_sizes id _ _ Hiter Ht Hwb).
Defined.

(** ** Arguments the validation turns away, and falsy banks *)

Lemma fill_table_no_words (set_iter : list str → list str)
  (positions : list nat) (dp : table) :
  Forall (λ c, c < length dp) positions →
  fill_table set_iter ∅ positions dp = Ok dp.
Proof.
  assert (∀ c, c < length dp → fill_pos set_iter ∅ dp c = Ok dp) as Hpos.
  { intros c Hc. unfold fill_pos, table_get, words_at.
    destruct (lookup_lt_is_Some_2 dp c Hc) as [slot ->]. simpl.
    rewrite lookup_empty. by destruct slot. }
  unfold fill_table. induction 1 as [|c positions Hc _ IH]; simpl; [done|].
  by rewrite Hpos.
Qed.

(** With no word in the bank nothing leaves slot 0. *)
Lemma construct_empty_bank (set_iter : list str → list str) (target : str) :
  valid_target target → construct set_iter target [] = Ok [].
Proof.
  intros Ht. unfold construct, build_word_positions. simpl.
  rewrite fill_table_no_words.
  - simpl. rewrite (init_table_after target []), table_get_after by done.
    simpl. rewrite decide_False; [done|]. by destruct target.
  - apply Forall_forall. intros c Hc%elem_of_seq.
    unfold init_table. rewrite length_insert, length_replicate. lia.
Qed.

Lemma forallb_is_str_false (words : list pyval) :
  forallb is_str words = false ↔ ∃ x, x ∈ words ∧ is_str x = false.
Proof.
  induction words as [|x words IH]; simpl.
  - split; [done|]. by intros (x & []%elem_of_nil & _).
  - rewrite andb_false_iff, IH. setoid_rewrite elem_of_cons. naive_solver.
Qed.

Lemma existsb_empty_str (words : list pyval) :
  forallb is_str words = true →
  existsb (λ word, negb (truthy word)) words = true ↔ PyStr [] ∈ words.
Proof.
  induction words as [|x words IH]; simpl.
  - intros _. split; [done|]. by intros []%elem_of_nil.
  - intros [Hx Hall]%andb_true_iff.
    rewrite orb_true_iff, (IH Hall), elem_of_cons.
    destruct x as [| | |s|]; try done. simpl.
    rewrite negb_involutive, bool_decide_eq_true. naive_solver.
Qed.

Lemma valid_bank_omap (words : list pyval) :
  forallb is_str words = true →
  existsb (λ word, negb (truthy word)) words = false →
  valid_bank (omap as_str words).
Proof.
  induction words as [|x words IH]; simpl; [by constructor|].
  intros [Hx Hall]%andb_true_iff [Hnx Hno]%orb_false_iff.
  destruct x as [| | |s|]; try done. simpl in *.
  constructor; [|by apply IH].
  rewrite negb_involutive in Hnx. by apply bool_decide_eq_false in Hnx.
Qed.

Lemma construct_returns (set_iter : list str → list str) (target : str)
  (bank : list str) :
  set_order set_iter → valid_bank bank →
  ∃ r, construct set_iter target bank = Ok r.
Proof. intros Hiter Hwb. eexists. by apply construct_closed. Qed.

(** The three ways a call on a non-empty target and a list can end. *)
Lemma all_construct_list (set_iter : list str → list str) (target : str)
  (words : list pyval) :
  target ≠ [] →
  all_construct set_iter (PyStr target) (PyList words)
  = if negb (forallb is_str words) then Raise TypeError
    else if existsb (λ word, negb (truthy word)) words then Raise ValueError
    else construct set_iter target (omap as_str words).
Proof.
  intros Ht. unfold all_construct. simpl.
  rewrite bool_decide_false by done. simpl.
  by destruct words.
Qed.

(** C9, a falsy bank is the empty bank: [None], [0], [False], [""] and
    [[]] are falsy, and on a valid target a call with a falsy bank raises
    nothing and returns the empty list, as the call with [[]] does. *)
Theorem all_construct_falsy_bank (set_iter : list str → list str)
  (target : str) :
  valid_target target →
  Forall (λ x, truthy x = false)
    [PyNone; PyInt 0; PyBool false; PyStr []; PyList []]
  ∧ ∀ x, truthy x = false →
      all_construct set_iter (PyStr target) x = Ok []
      ∧ all_construct set_iter (PyStr target) x
        = all_construct set_iter (PyStr target) (PyList []).
Proof.
  intros Ht. split; [by repeat constructor|].
  assert (∀ x, truthy x = false →
            all_construct set_iter (PyStr target) x = Ok []) as Hfalsy.
  { intros x Hx. unfold all_construct. rewrite Hx. simpl.
    rewrite bool_decide_false by done. simpl.
    by apply construct_empty_bank. }
  intros x Hx. split; [by apply Hfalsy|].
  by rewrite !Hfalsy.
Qed.

Lemma all_construct_falsy_bank_witness :
  valid_target (py "a")
  ∧ truthy (PyInt 0) = false
  ∧ all_construct reverse (PyStr (py "a")) (PyInt 0) = Ok []
  ∧ all_construct reverse (PyStr (py "a")) (PyInt 0)
    = all_construct reverse (PyStr (py "a")) (PyList []).
Proof.
  assert (valid_target (py "a")) as Ht by done.
  split_and!; [done..| |];
    apply (proj2 (all_construct_falsy_bank reverse (py "a") Ht) (PyInt 0));
    reflexivity.
Defined.

Lemma bank_elements_list (words : list pyval) :
  bank_elements (PyList words) = Ok words.
Proof. by destruct words. Qed.

Lemma bank_elements_raises (word_bank : pyval) (e : exn) :
  bank_elements word_bank = Raise e → e = TypeError.
Proof.
  unfold bank_elements. destruct (truthy word_bank); [|done].
  destruct word_bank; simpl; congruence.
Qed.

(** The ways a call on a non-empty target can end, whatever the bank. *)
Lemma all_construct_bank (set_iter : list str → list str) (target : str)
  (word_bank : pyval) :
  target ≠ [] →
  all_construct set_iter (PyStr target) word_bank
  = words ← bank_elements word_bank;
    if negb (forallb is_str words) then Raise TypeError
    else if existsb (λ word, negb (truthy word)) words then Raise ValueError
    else construct set_iter target (omap as_str words).
Proof.
  intros Ht. unfold all_construct, bank_elements. simpl.
  by rewrite bool_decide_false by done.
Qed.

(** C3 as amended, what is raised and when, for a bank that is a list,
    [None], a Boolean, an integer or a string.  The elements of the bank
    are what iterating [word_bank or []] gives: those of a list, none for
    [None] and the other falsy values, the characters of a non-empty
    string; a truthy bank that cannot be iterated has none to give and
    raises.  The checks run in order, so a [TypeError] is raised exactly
    when the target is not a string, or is a non-empty string and the
    bank cannot be iterated or one of its elements is not a string; a
    [ValueError] exactly when the target is the empty string, or is a
    non-empty string, the bank can be iterated, all its elements are
    strings and one of them is empty; nothing else is raised, and the
    call returns a result exactly when the target is a non-empty string
    and the elements of the bank are non-empty strings. *)
Theorem all_construct_raises (set_iter : list str → list str)
  (target word_bank : pyval) :
  set_order set_iter →
  (all_construct set_iter target word_bank = Raise TypeError
   ↔ is_str target = false
     ∨ ∃ s, target = PyStr s ∧ s ≠ []
            ∧ (bank_elements word_bank = Raise TypeError
               ∨ ∃ words, bank_elements word_bank = Ok words
                          ∧ ∃ x, x ∈ words ∧ is_str x = false))
  ∧ (all_construct set_iter target word_bank = Raise ValueError
     ↔ target = PyStr []
       ∨ ∃ s words, target = PyStr s ∧ s ≠ []
                    ∧ bank_elements word_bank = Ok words
                    ∧ (∀ x, x ∈ words → is_str x = true)
                    ∧ PyStr [] ∈ words)
  ∧ all_construct set_iter target word_bank ≠ Raise IndexError
  ∧ ((∃ s words, target = PyStr s ∧ s ≠ []
                 ∧ bank_elements word_bank = Ok words
                 ∧ ∀ x, x ∈ words → ∃ w, x = PyStr w ∧ w ≠ [])
     ↔ ∃ r, all_construct set_iter target word_bank = Ok r)
  ∧ (∀ words, word_bank = PyList words → bank_elements word_bank = Ok words)
  ∧ (truthy word_bank = false → bank_elements word_bank = Ok [])
  ∧ (∀ s, word_bank = PyStr s → s ≠ [] →
          bank_elements word_bank = Ok ((λ c, PyStr [c]) <$> s))
  ∧ (truthy word_bank = true → is_str word_bank = false →
     (∀ words, word_bank ≠ PyList words) →
     bank_elements word_bank = Raise TypeError).
Proof.
  intros Hiter.
  assert ((∀ words, word_bank = PyList words →
                    bank_elements word_bank = Ok words)
          ∧ (truthy word_bank = false → bank_elements word_bank = Ok [])
          ∧ (∀ s, word_bank = PyStr s → s ≠ [] →
                  bank_elements word_bank = Ok ((λ c, PyStr [c]) <$> s))
          ∧ (truthy word_bank = true → is_str word_bank = false →
             (∀ words, word_bank ≠ PyList words) →
             bank_elements word_bank = Raise TypeError)) as Hbank.
  { split_and!.
    - intros words ->. apply bank_elements_list.
    - intros Hb. unfold bank_elements. by rewrite Hb.
    - intros s -> Hs. unfold bank_elements. simpl.
      by rewrite bool_decide_false by done.
    - intros Hb Hstr Hlist. unfold bank_elements. rewrite Hb.
      destruct word_bank as [| | | |xs]; try done. by destruct (Hlist xs). }
  cut ((all_construct set_iter target word_bank = Raise TypeError
        ↔ is_str target = false
          ∨ ∃ s, target = PyStr s ∧ s ≠ []
                 ∧ (bank_elements word_bank = Raise TypeError
                    ∨ ∃ words, bank_elements word_bank = Ok words
                               ∧ ∃ x, x ∈ words ∧ is_str x = false))
       ∧ (all_construct set_iter target word_bank = Raise ValueError
          ↔ target = PyStr []
            ∨ ∃ s words, target = PyStr s ∧ s ≠ []
                         ∧ bank_elements word_bank = Ok words
                         ∧ (∀ x, x ∈ words → is_str x = true)
                         ∧ PyStr [] ∈ words)
       ∧ all_construct set_iter target word_bank ≠ Raise IndexError
       ∧ ((∃ s words, target = PyStr s ∧ s ≠ []
                      ∧ bank_elements word_bank = Ok words
                      ∧ ∀ x, x ∈ words → ∃ w, x = PyStr w ∧ w ≠ [])
          ↔ ∃ r, all_construct set_iter target word_bank = Ok r)).
  { intros (Htype & Hvalue & Hindex & Hok). by split_and!; try apply Hbank. }
  clear Hbank.
  destruct target as [| | |s|].
  1-3, 5: split_and!;
    [ split; [by left | done]
    | split; [done | by intros [Heq | (s' & words & Heq & _)]]
    | done
    | split; [by intros (s' & words & Heq & _) | by intros [r Hr]] ].
  destruct (decide (s = [])) as [->|Hs].
  { split_and!.
    - split; [done|]. by intros [Heq | (s' & [= <-] & Hne & _)].
    - split; [by left | done].
    - done.
    - split; [by intros (s' & words & [= <-] & Hne & _) | by intros [r Hr]]. }
  rewrite all_construct_bank by done.
  destruct (bank_elements word_bank) as [words|e] eqn:Hwords; simpl.
  2: { apply bank_elements_raises in Hwords as Hwords'. subst e.
       split_and!.
       - split; [|done]. intros _. right. exists s. split_and!; [done..|].
         by left.
       - split; [done|].
         intros [Heq | (s' & ws & _ & _ & Heq & _)]; [by injection Heq|done].
       - done.
       - split; [by intros (s' & ws & _ & _ & Heq & _) | by intros [r Hr]]. }
  destruct (forallb is_str words) eqn:Hall; simpl.
  - assert (∀ x, x ∈ words → is_str x = true) as Hstr.
    { intros x Hx. destruct (is_str x) eqn:Hsx; [done|].
      assert (forallb is_str words = false) as Hf
        by (apply forallb_is_str_false; eauto).
      congruence. }
    destruct (existsb (λ word, negb (truthy word)) words) eqn:Hex.
    + apply (existsb_empty_str words Hall) in Hex. split_and!.
      * split; [done|].
        intros [Heq | (s' & _ & _ & [Heq | (ws & [= <-] & x & Hx & Hsx)])];
          [done..|].
        rewrite (Hstr x Hx) in Hsx. done.
      * split; [|done]. intros _. right. exists s, words. by split_and!.
      * done.
      * split; [|by intros [r Hr]].
        intros (s' & ws & _ & _ & [= <-] & Hne).
        destruct (Hne _ Hex) as (w & [= <-] & Hw). done.
    + destruct (construct_returns set_iter s (omap as_str words) Hiter)
        as [r Hr]; [by apply valid_bank_omap|].
      rewrite Hr. split_and!.
      * split; [done|].
        intros [Heq | (s' & _ & _ & [Heq | (ws & [= <-] & x & Hx & Hsx)])];
          [done..|].
        rewrite (Hstr x Hx) in Hsx. done.
      * split; [done|].
        intros [Heq | (s' & ws & _ & _ & [= <-] & _ & Hemp)].
        { by injection Heq. }
        apply (existsb_empty_str words Hall) in Hemp. congruence.
      * done.
      * split; [by eauto|]. intros _. exists s, words.
        split_and!; [done..|].
        intros x Hx. pose proof (Hstr x Hx) as Hsx.
        destruct x as [| | |w|]; try done. exists w. split; [done|].
        intros ->. apply (existsb_empty_str words Hall) in Hx. congruence.
  - apply forallb_is_str_false in Hall as (x & Hx & Hsx). split_and!.
    + split; [|done]. intros _. right. exists s. split_and!; [done..|].
      right. exists words. split; [done|]. by exists x.
    + split; [done|].
      intros [Heq | (s' & ws & _ & _ & [= <-] & Hstr & _)].
      { by injection Heq. }
      rewrite (Hstr x Hx) in Hsx. done.
    + done.
    + split; [|by intros [r Hr]].
      intros (s' & ws & _ & _ & [= <-] & Hne).
      destruct (Hne x Hx) as (w & -> & _). done.
Qed.

Lemma all_construct_raises_witness :
  set_order id
  ∧ all_construct id (PyInt 123) (PyList [PyStr (py "a")]) = Raise TypeError
  ∧ all_construct id (PyStr []) (PyList [PyInt 1]) = Raise ValueError
  ∧ all_construct id (PyStr (py "a")) (PyList [PyStr []; PyInt 1])
    = Raise TypeError
  ∧ all_construct id (PyStr (py "a")) (PyInt 5) = Raise TypeError
  ∧ ∃ r, all_construct id (PyStr (py "a")) PyNone = Ok r.
Proof.
  assert (set_order id) as Hiter by exact set_order_id.
  split_and!; [done| | | | |].
  - apply (all_construct_raises id (PyInt 123) (PyList [PyStr (py "a")]) Hiter).
    by left.
  - apply (all_construct_raises id (PyStr []) (PyList [PyInt 1]) Hiter).
    by left.
  - apply (all_construct_raises id (PyStr (py "a"))
             (PyList [PyStr []; PyInt 1]) Hiter).
    right. exists (py "a"). split_and!; [done..|].
    right. exists [PyStr []; PyInt 1]. split; [done|].
    exists (PyInt 1). split; [|done]. by do 2 constructor.
  - apply (all_construct_raises id (PyStr (py "a")) (PyInt 5) Hiter).
    right. exists (py "a"). split_and!; [done..|]. by left.
  - apply (all_construct_raises id (PyStr (py "a")) PyNone Hiter).
    exists (py "a"), []. split_and!; [done..|]. by intros x ?%elem_of_nil.
Defined.

(** C3 as stated fails: an empty target with a bank that holds a
    non-string raises [ValueError], not the [TypeError] the non-string
    element calls for. *)
Lemma all_construct_raises_as_stated_fails :
  all_construct id (PyStr []) (PyList [PyInt 1]) = Raise ValueError
  ∧ ¬ (all_construct id (PyStr []) (PyList [PyInt 1]) = Raise TypeError
       ↔ is_str (PyStr []) = false
         ∨ ∃ x, x ∈ [PyInt 1] ∧ is_str x = false).
Proof.
  split; [reflexivity|]. intros [_ Hraise].
  assert (all_construct id (PyStr []) (PyList [PyInt 1]) = Raise TypeError)
    as Habs.
  { apply Hraise. right. exists (PyInt 1). split; [by constructor|done]. }
  discriminate Habs.
Qed.

(** ** The table while it is filled *)

(** Every table of the loop is a closed form. *)
Lemma loop_point_closed (set_iter : list str → list str) (target : str)
  (word_bank : list str) (dp : table) :
  set_order set_iter → valid_bank word_bank →
  loop_point set_iter target word_bank dp →
  ∃ c done, c ≤ length target
            ∧ (∀ w, w ∈ done → w ∈ word_bank)
            ∧ dp = table_during target word_bank done c.
Proof.
  intros Hiter Hwb [c dp' Hc Hfill|c before ws rest dp' Hc Hfill _ Hws Hrun].
  - rewrite fill_table_after in Hfill by done. injection Hfill as <-.
    exists c, []. split_and!; [done| |by rewrite table_during_nil].
    by intros w ?%elem_of_nil.
  - rewrite fill_table_after in Hfill by (done || lia).
    injection Hfill as <-.
    assert (∀ w, w ∈ ws → w ∈ word_bank ∧ matches_at target c w) as Hin.
    { intros w Hw. apply (elem_of_words_at target word_bank set_iter Hiter).
      rewrite Hws. apply elem_of_app. by left. }
    rewrite <-table_during_nil, (fill_words_during target word_bank) in Hrun.
    + injection Hrun as <-. exists c, ws. split_and!; [lia| |done].
      intros w Hw. by apply Hin.
    + simpl.
      pose proof (NoDup_words_at target word_bank set_iter Hiter c) as Hnd.
      rewrite Hws in Hnd. by apply NoDup_app in Hnd as (? & _ & _).
    + intros w Hw. destruct (Hin w Hw) as [Hb Hm]. split; [|done].
      by apply (bank_word_nonempty word_bank Hwb).
Qed.

(** C5 as amended, the invariants of the table: at every point of the
    loop slot 0 holds the empty combination and nothing else, and every
    combination [D] of slot [k], which holds its words last word first,
    spells [target[0:k]] once reversed, the words of [D] having [k]
    characters together. *)
Theorem table_invariant (set_iter : list str → list str) (target : str)
  (word_bank : list str) (dp : table) :
  set_order set_iter → valid_target target → valid_bank word_bank →
  loop_point set_iter target word_bank dp →
  dp !! 0 = Some [[]]
  ∧ ∀ k slot D, dp !! k = Some slot → D ∈ slot →
      concat (reverse D) = slice target 0 k ∧ length (concat D) = k.
Proof.
  intros Hiter Ht Hwb Hpoint.
  destruct (loop_point_closed set_iter target word_bank dp)
    as (c & seen & Hc & Hseen & ->); [done..|].
  unfold table_during. split.
  - rewrite lookup_fmap_seq by lia. f_equal.
    unfold slot_during, new_at. rewrite slot_after_zero.
    by rewrite decide_False by lia.
  - intros k slot D Hk HD.
    assert (k < length target + 1) as Hlt.
    { apply lookup_lt_Some in Hk.
      by rewrite length_fmap, length_seq in Hk. }
    rewrite lookup_fmap_seq in Hk by done. injection Hk as <-.
    apply slot_during_sound in HD as [Hcat _]; [|lia].
    unfold slice. rewrite Nat.sub_0_r. simpl. split; [done|].
    rewrite <-length_concat_reverse, Hcat. apply length_take_le. lia.
Qed.

Lemma table_invariant_witness :
  set_order id ∧ valid_target (py "ab") ∧ valid_bank [py "a"; py "b"; py "ab"]
  ∧ loop_point id (py "ab") [py "a"; py "b"; py "ab"]
      [[[]]; [[py "a"]]; []]
  ∧ ∀ k slot D,
      [[[]]; [[py "a"]]; []] !! k = Some slot → D ∈ slot →
      concat (reverse D) = slice (py "ab") 0 k ∧ length (concat D) = k.
Proof.
  assert (set_order id) as Hiter by exact set_order_id.
  assert (valid_target (py "ab")) as Ht by done.
  assert (valid_bank [py "a"; py "b"; py "ab"]) as Hwb
    by (repeat constructor; done).
  assert (loop_point id (py "ab") [py "a"; py "b"; py "ab"]
            [[[]]; [[py "a"]]; []]) as Hpoint.
  { apply (at_word id _ _ 0 [[[]]; []; []] [py "a"] [py "ab"]);
      [simpl; lia | reflexivity | discriminate | reflexivity | reflexivity]. }
  split_and!; [done..|].
  exact (proj2 (table_invariant id _ _ _ Hiter Ht Hwb Hpoint)).
Defined.

(** C5 as stated fails: the combinations of the table are kept last word
    first, so joined as they stand they do not spell the prefix. *)
Lemma table_invariant_as_stated_fails :
  loop_point id (py "ab") [py "a"; py "b"] [[[]]; [[py "a"]]; [[py "b"; py "a"]]]
  ∧ [py "b"; py "a"] ∈ [[py "b"; py "a"]]
  ∧ concat [py "b"; py "a"] ≠ slice (py "ab") 0 2.
Proof.
  split_and!.
  - apply (at_position id _ _ 2); [simpl; lia | reflexivity].
  - by constructor.
  - discriminate.
Qed.

(** C8, the accesses stay in bounds: a word is compared with the target
    only at offsets where it fits, every word kept for a position ends
    within the target, every table of the loop has [len(target) + 1]
    slots, so that the slots read and extended exist, and the call ends
    with a result and not with an error. *)
Theorem all_construct_in_bounds (set_iter : list str → list str)
  (target : str) (word_bank : list str) :
  set_order set_iter → valid_target target → valid_bank word_bank →
  (∀ word i, word ∈ word_bank → i ∈ scan_offsets target word →
             i + length word ≤ length target)
  ∧ (∀ current_pos word,
       word ∈ words_at set_iter (build_word_positions target word_bank)
                current_pos →
       current_pos + length word ≤ length target)
  ∧ (∀ dp, loop_point set_iter target word_bank dp →
           length dp = length target + 1)
  ∧ (∀ dp current_pos word,
       loop_point set_iter target word_bank dp →
       current_pos < length target →
       word ∈ words_at set_iter (build_word_positions target word_bank)
                current_pos →
       ∃ dp', fill_word current_pos dp word = Ok dp')
  ∧ ∃ r, call set_iter target word_bank = Ok r.
Proof.
  intros Hiter Ht Hwb.
  assert (∀ dp, loop_point set_iter target word_bank dp →
                length dp = length target + 1) as Hlen.
  { intros dp Hpoint.
    destruct (loop_point_closed set_iter target word_bank dp)
      as (c & seen & _ & _ & ->); [done..|].
    unfold table_during. by rewrite length_fmap, length_seq. }
  assert (∀ c w,
    w ∈ words_at set_iter (build_word_positions target word_bank) c →
    c + length w ≤ length target) as Hend.
  { intros c w Hw.
    by apply (elem_of_words_at target word_bank set_iter Hiter)
      in Hw as [_ [Hfit _]]. }
  split_and!.
  - intros word i _ Hi. by apply elem_of_scan_offsets in Hi.
  - done.
  - done.
  - intros dp c w Hpoint Hc Hw. pose proof (Hend c w Hw) as Hfit.
    pose proof (Hlen dp Hpoint) as Hdp.
    unfold fill_word, table_extend, table_get.
    destruct (lookup_lt_is_Some_2 dp c) as [slot ->]; [lia|]. simpl.
    destruct (lookup_lt_is_Some_2 dp (c + length w)) as [old ->]; [lia|].
    simpl. by eexists.
  - eexists. by apply call_closed.
Qed.

Lemma all_construct_in_bounds_witness :
  set_order reverse ∧ valid_target (py "abc")
  ∧ valid_bank [py "ab"; py "c"; py "abcd"; py "bc"]
  ∧ (∀ word i, word ∈ [py "ab"; py "c"; py "abcd"; py "bc"] →
               i ∈ scan_offsets (py "abc") word →
               i + length word ≤ length (py "abc"))
  ∧ ∃ r, call reverse (py "abc") [py "ab"; py "c"; py "abcd"; py "bc"] = Ok r.
Proof.
  assert (set_order reverse) as Hiter by (intros s; apply reverse_Permutation).
  assert (valid_target (py "abc")) as Ht by done.
  assert (valid_bank [py "ab"; py "c"; py "abcd"; py "bc"]) as Hwb
    by (repeat constructor; done).
  split_and!; [done..| |];
    apply (all_construct_in_bounds reverse _ _ Hiter Ht Hwb).
Defined.

(** ** The order of the result *)

(** Within a slot the word in front gets shorter, never longer. *)
Lemma slot_after_ordered (target : str) (bank : list str) (c k : nat)
  (i j : nat) (Di Dj : combination) :
  k ≤ length target → i ≤ j →
  slot_after target bank c k !! i = Some Di →
  slot_after target bank c k !! j = Some Dj →
  length (default [] (head Dj)) ≤ length (default [] (head Di)).
Proof.
  intros Hk. revert i j Di Dj. induction c as [|c IH]; intros i j Di Dj Hij.
  - simpl. case_decide; [|done].
    intros Hi%list_elem_of_lookup_2%list_elem_of_singleton
           Hj%list_elem_of_lookup_2%list_elem_of_singleton.
    by subst.
  - simpl. rewrite !lookup_app_Some.
    intros [Hi|[Hlen Hi]] [Hj|[Hlen' Hj]].
    + by apply (IH i j).
    + apply list_elem_of_lookup_2, slot_after_head in Hi.
      apply list_elem_of_lookup_2, elem_of_new_at in Hj
        as (Hck & _ & D' & -> & _).
      destruct Hi as [[-> _]|(p & D'' & Hp & Hpk & ->)]; [lia|]. simpl.
      rewrite !slice_length by lia. lia.
    + apply lookup_lt_Some in Hj. lia.
    + apply list_elem_of_lookup_2, elem_of_new_at in Hi
        as (_ & _ & D' & -> & _).
      apply list_elem_of_lookup_2, elem_of_new_at in Hj
        as (_ & _ & D'' & -> & _).
      done.
Qed.

(** C6 as amended, the order of the result: it is the same list whatever
    the order in which the sets are walked, the one the order of the bank
    gives at each position included, and its combinations come in
    increasing order of the offset at which their last word starts. *)
Theorem all_construct_order (set_iter set_iter' : list str → list str)
  (target : str) (word_bank : list str) :
  set_order set_iter → set_order set_iter' →
  valid_target target → valid_bank word_bank →
  ∃ r, call set_iter target word_bank = Ok r
       ∧ call set_iter' target word_bank = Ok r
       ∧ call id target word_bank = Ok r
       ∧ in_last_word_order target r.
Proof.
  intros Hiter Hiter' Ht Hwb. eexists.
  split_and!; [apply call_closed; done || apply set_order_id..|].
  intros i j Di Dj Hij
    (Di0 & -> & Hi)%list_lookup_fmap_Some_1
    (Dj0 & -> & Hj)%list_lookup_fmap_Some_1.
  unfold last_word_start. rewrite !last_reverse.
  pose proof (slot_after_ordered target word_bank _ _ i j Di0 Dj0
                (le_n _) Hij Hi Hj).
  lia.
Qed.

Lemma all_construct_order_witness :
  set_order reverse ∧ set_order id
  ∧ valid_target (py "ab") ∧ valid_bank [py "a"; py "b"; py "ab"]
  ∧ ∃ r, call reverse (py "ab") [py "a"; py "b"; py "ab"] = Ok r
         ∧ call id (py "ab") [py "a"; py "b"; py "ab"] = Ok r
         ∧ call id (py "ab") [py "a"; py "b"; py "ab"] = Ok r
         ∧ in_last_word_order (py "ab") r.
Proof.
  assert (set_order reverse) as Hiter by (intros s; apply reverse_Permutation).
  assert (set_order id) as Hiter' by exact set_order_id.
  assert (valid_target (py "ab")) as Ht by done.
  assert (valid_bank [py "a"; py "b"; py "ab"]) as Hwb
    by (repeat constructor; done).
  split_and!; [done..|].
  exact (all_construct_order reverse id _ _ Hiter Hiter' Ht Hwb).
Defined.

(** C6 as stated fails: ["ab"] comes before ["a", "b"] although "a" is
    the first word of the bank and "ab" its last. *)
Lemma first_word_order_fails :
  call id (py "ab") [py "a"; py "b"; py "ab"]
  = Ok [[py "ab"]; [py "a"; py "b"]]
  ∧ ¬ in_first_word_order [py "a"; py "b"; py "ab"]
        [[py "ab"]; [py "a"; py "b"]].
Proof.
  split; [reflexivity|]. intros Hord.
  pose proof (Hord 0 1 [py "ab"] [py "a"; py "b"]) as Hle.
  vm_compute in Hle. specialize (Hle (le_S _ _ (le_n _)) eq_refl eq_refl).
  lia.
Qed.

(** The same list comes out when the bank is given backwards. *)
Example bank_backwards :
  call id (py "ab") [py "ab"; py "b"; py "a"]
  = Ok [[py "ab"]; [py "a"; py "b"]].
Proof. reflexivity. Qed.

(** C7, the bank as a set: two banks with the same words give results
    with the same combinations (the same list, even), and the words kept
    for a position are distinct, so that a word the bank repeats counts
    once there. *)
Theorem all_construct_bank_set (set_iter : list str → list str)
  (target : str) (word_bank1 word_bank2 : list str) :
  set_order set_iter → valid_target target →
  valid_bank word_bank1 → valid_bank word_bank2 →
  (∀ w, w ∈ word_bank1 ↔ w ∈ word_bank2) →
  (∃ r1 r2, call set_iter target word_bank1 = Ok r1
            ∧ call set_iter target word_bank2 = Ok r2
            ∧ (∀ D, D ∈ r1 ↔ D ∈ r2)
            ∧ r1 = r2)
  ∧ ∀ current_pos,
      NoDup (words_at set_iter (build_word_positions target word_bank1)
               current_pos).
Proof.
  intros Hiter Ht Hwb1 Hwb2 Hsame. split.
  - do 2 eexists. split_and!; [by apply call_closed..| |].
    + by rewrite (slot_after_ext target word_bank1 word_bank2).
    + by rewrite (slot_after_ext target word_bank1 word_bank2).
  - intros c. by apply NoDup_words_at.
Qed.

Lemma all_construct_bank_set_witness :
  set_order id ∧ valid_target (py "aab")
  ∧ valid_bank [py "a"; py "ab"; py "aa"; py "b"]
  ∧ valid_bank [py "b"; py "aa"; py "a"; py "ab"; py "a"; py "b"]
  ∧ ∃ r1 r2,
      call id (py "aab") [py "a"; py "ab"; py "aa"; py "b"] = Ok r1
      ∧ call id (py "aab") [py "b"; py "aa"; py "a"; py "ab"; py "a"; py "b"]
        = Ok r2
      ∧ (∀ D, D ∈ r1 ↔ D ∈ r2)
      ∧ r1 = r2.
Proof.
  assert (set_order id) as Hiter by exact set_order_id.
  assert (valid_target (py "aab")) as Ht by done.
  assert (valid_bank [py "a"; py "ab"; py "aa"; py "b"]) as Hwb1
    by (repeat constructor; done).
  assert (valid_bank [py "b"; py "aa"; py "a"; py "ab"; py "a"; py "b"])
    as Hwb2 by (repeat constructor; done).
  split_and!; [done..|].
  apply (all_construct_bank_set id _ _ _ Hiter Ht Hwb1 Hwb2).
  intros w. rewrite !elem_of_cons, !elem_of_nil. tauto.
Defined.

(** ** Further properties: what the validation does with any bank *)

(** The checks on the target come first and do not look at the bank: a
    target that is not a string raises [TypeError] and the empty target
    [ValueError] whatever the bank is, iterable or not; and with a valid
    target a truthy bank that is neither a string nor a list, a non-zero
    integer or [True], raises [TypeError], as it cannot be iterated. *)
Theorem all_construct_any_bank (set_iter : list str → list str)
  (word_bank : pyval) :
  (∀ target, is_str target = false →
             all_construct set_iter target word_bank = Raise TypeError)
  ∧ all_construct set_iter (PyStr []) word_bank = Raise ValueError
  ∧ (∀ s, s ≠ [] → truthy word_bank = true → is_str word_bank = false →
          (∀ xs, word_bank ≠ PyList xs) →
          all_construct set_iter (PyStr s) word_bank = Raise TypeError).
Proof.
  split_and!.
  - intros target Ht. by destruct target.
  - done.
  - intros s Hs Hb Hstr Hlist. unfold all_construct. simpl.
    rewrite bool_decide_false by done. simpl. rewrite Hb.
    destruct word_bank as [|b|z|w|xs]; try done.
    by destruct (Hlist xs).
Qed.

Lemma all_construct_any_bank_witness :
  all_construct id (PyInt 123) (PyInt 5) = Raise TypeError
  ∧ all_construct id (PyStr []) (PyInt 5) = Raise ValueError
  ∧ all_construct id (PyStr (py "a")) (PyInt 5) = Raise TypeError.
Proof.
  destruct (all_construct_any_bank id (PyInt 5)) as (Htype & Hvalue & Hbank).
  split_and!.
  - by apply Htype.
  - exact Hvalue.
  - by apply Hbank.
Defined.

(** ** Further properties: the result as a set of spellings *)

(** The combinations of the result are the spellings of the target. *)
Lemma call_elem_of (set_iter : list str → list str) (target : str)
  (word_bank : list str) (D : combination) :
  set_order set_iter → valid_target target → valid_bank word_bank →
  D ∈ reverse <$> slot_after target word_bank (length target) (length target)
  ↔ concat D = target ∧ Forall (λ w, w ∈ word_bank) D.
Proof.
  intros Hiter Ht Hwb. split.
  - intros (D0 & -> & HD0)%list_elem_of_fmap.
    apply slot_after_sound in HD0 as [Hcat Hall]; [|done].
    split; [by rewrite Hcat, take_ge | by apply Forall_reverse].
  - intros [Hcat Hall]. apply list_elem_of_fmap. exists (reverse D).
    split; [by rewrite reverse_involutive|].
    apply slot_after_complete; [done| |by rewrite take_ge].
    apply Forall_forall. intros w Hw. split.
    + by apply (proj1 (Forall_forall _ _) Hall).
    + apply (proj1 (Forall_forall _ _) Hwb).
      by apply (proj1 (Forall_forall _ _) Hall).
Qed.

Lemma call_NoDup (target : str) (word_bank : list str) :
  NoDup (reverse <$>
           slot_after target word_bank (length target) (length target)).
Proof.
  apply NoDup_fmap_2_strong; [|by apply slot_after_NoDup].
  intros D1 D2 _ _ Heq. apply (f_equal reverse) in Heq.
  by rewrite !reverse_involutive in Heq.
Qed.

(** Results compose: a combination for one target followed by a
    combination for another is a combination for the two targets joined. *)
Theorem all_construct_app (set_iter : list str → list str)
  (target1 target2 : str) (word_bank : list str) :
  set_order set_iter → valid_target target1 → valid_target target2 →
  valid_bank word_bank →
  ∃ r1 r2 r, call set_iter target1 word_bank = Ok r1
             ∧ call set_iter target2 word_bank = Ok r2
             ∧ call set_iter (target1 ++ target2) word_bank = Ok r
             ∧ ∀ D1 D2, D1 ∈ r1 → D2 ∈ r2 → D1 ++ D2 ∈ r.
Proof.
  intros Hiter Ht1 Ht2 Hwb.
  assert (valid_target (target1 ++ target2)) as Ht
    by (by destruct target1).
  do 3 eexists. split_and!; [by apply call_closed..|].
  intros D1 D2 [Hc1 Ha1]%(call_elem_of set_iter) [Hc2 Ha2]%(call_elem_of set_iter);
    [|done..].
  apply (call_elem_of set_iter); [done..|]. split.
  - by rewrite concat_app, Hc1, Hc2.
  - by apply Forall_app.
Qed.

Lemma all_construct_app_witness :
  set_order id ∧ valid_target (py "ab") ∧ valid_target (py "c")
  ∧ valid_bank [py "a"; py "b"; py "ab"; py "c"]
  ∧ ∃ r1 r2 r,
      call id (py "ab") [py "a"; py "b"; py "ab"; py "c"] = Ok r1
      ∧ call id (py "c") [py "a"; py "b"; py "ab"; py "c"] = Ok r2
      ∧ call id (py "ab" ++ py "c") [py "a"; py "b"; py "ab"; py "c"] = Ok r
      ∧ ∀ D1 D2, D1 ∈ r1 → D2 ∈ r2 → D1 ++ D2 ∈ r.
Proof.
  assert (set_order id) as Hiter by exact set_order_id.
  assert (valid_target (py "ab")) as Ht1 by done.
  assert (valid_target (py "c")) as Ht2 by done.
  assert (valid_bank [py "a"; py "b"; py "ab"; py "c"]) as Hwb
    by (repeat constructor; done).
  split_and!; [done..|].
  exact (all_construct_app id _ _ _ Hiter Ht1 Ht2 Hwb).
Defined.

(** ** Further properties: a string given as the bank *)

Lemma concat_chars (s : str) : concat ((λ c, [c]) <$> s) = s.
Proof. induction s as [|c s IH]; simpl; [done|]. by f_equal. Qed.

Lemma chars_of_concat (D : combination) :
  Forall (λ w, ∃ c, w = [c]) D → D = (λ c, [c]) <$> concat D.
Proof.
  induction 1 as [|w D [c ->] _ IH]; simpl; [done|]. by f_equal.
Qed.

Lemma elem_of_chars (s w : str) :
  w ∈ (λ c, [c]) <$> s ↔ ∃ c, w = [c] ∧ c ∈ s.
Proof. apply list_elem_of_fmap. Qed.

Lemma valid_bank_chars (s : str) : valid_bank ((λ c, [c]) <$> s).
Proof. apply Forall_fmap, Forall_forall. by intros c _. Qed.

Lemma NoDup_only {A : Type} (l : list A) (x : A) :
  NoDup l → (∀ y, y ∈ l ↔ y = x) → l = [x].
Proof.
  intros Hnd Hl. destruct l as [|y l].
  - assert (x ∈ []) as []%elem_of_nil by by apply Hl.
  - assert (y = x) as -> by (apply Hl; by left).
    apply NoDup_cons in Hnd as [Hx _]. f_equal.
    destruct l as [|z l]; [done|]. exfalso. apply Hx.
    assert (z = x) as -> by (apply Hl; right; by left). by left.
Qed.

Lemma no_elem_nil {A : Type} (l : list A) : (∀ y, y ∉ l) → l = [].
Proof. destruct l as [|y l]; [done|]. intros Hl. destruct (Hl y). by left. Qed.

(** A string passed as the bank is not refused: its characters are the
    words.  The result is then the one combination that spells the target
    character by character when every character of the target occurs in
    the string, and the empty list otherwise. *)
Theorem all_construct_string_bank (set_iter : list str → list str)
  (target bank : str) :
  set_order set_iter → valid_target target → bank ≠ [] →
  all_construct set_iter (PyStr target) (PyStr bank)
  = call set_iter target ((λ c, [c]) <$> bank)
  ∧ all_construct set_iter (PyStr target) (PyStr bank)
    = Ok (if decide (Forall (λ c, c ∈ bank) target)
          then [(λ c, [c]) <$> target] else []).
Proof.
  intros Hiter Ht Hbank.
  assert (all_construct set_iter (PyStr target) (PyStr bank)
          = call set_iter target ((λ c, [c]) <$> bank)) as Hcall.
  { rewrite call_valid by (done || apply valid_bank_chars).
    unfold all_construct. simpl.
    rewrite !bool_decide_false by done. simpl.
    replace ((λ c, PyStr [c]) <$> bank)
      with (PyStr <$> ((λ c, [c]) <$> bank))
      by (by rewrite <-list_fmap_compose).
    rewrite forallb_is_str_strs, existsb_falsy_strs
      by apply valid_bank_chars.
    simpl. by rewrite omap_as_str_strs. }
  split; [done|]. rewrite Hcall.
  rewrite call_closed by (done || apply valid_bank_chars). f_equal.
  pose proof (call_NoDup target ((λ c, [c]) <$> bank)) as Hnd.
  pose proof (λ D, call_elem_of set_iter target ((λ c, [c]) <$> bank) D
                     Hiter Ht (valid_bank_chars bank)) as Hin.
  case_decide as Hall.
  - apply NoDup_only; [done|]. intros D. rewrite Hin. split.
    + intros [Hcat HD]. rewrite <-Hcat. apply chars_of_concat.
      eapply Forall_impl; [done|]. simpl.
      intros w (c & -> & _)%elem_of_chars. by exists c.
    + intros ->. split; [apply concat_chars|].
      apply Forall_fmap. eapply Forall_impl; [done|]. simpl.
      intros c Hc. apply elem_of_chars. by exists c.
  - apply no_elem_nil. intros D [Hcat HD]%Hin. apply Hall.
    rewrite <-Hcat. clear Hcat.
    induction HD as [|w D (c & -> & Hc)%elem_of_chars _ IH]; simpl.
    + constructor.
    + by constructor.
Qed.

Lemma all_construct_string_bank_witness :
  set_order id ∧ valid_target (py "abba") ∧ py "ab" ≠ []
  ∧ all_construct id (PyStr (py "abba")) (PyStr (py "ab"))
    = Ok [[py "a"; py "b"; py "b"; py "a"]].
Proof.
  assert (set_order id) as Hiter by exact set_order_id.
  assert (valid_target (py "abba")) as Ht by done.
  assert (py "ab" ≠ []) as Hbank by done.
  split_and!; [done..|].
  exact (proj2 (all_construct_string_bank id _ _ Hiter Ht Hbank)).
Defined.

(** ** Further properties: the finished table *)

Lemma slice_take (s : str) (m p q : nat) :
  q ≤ m → slice (take m s) p q = slice s p q.
Proof.
  intros Hq. unfold slice. destruct (decide (p ≤ q)) as [Hpq|Hpq].
  - rewrite !take_drop_commute, take_take. do 2 f_equal. lia.
  - replace (q - p) with 0 by lia. by rewrite !take_0.
Qed.

Lemma new_at_not_below (target : str) (words : list str) (p k : nat)
  (combos : list combination) :
  ¬ p < k → new_at target words p k combos = [].
Proof. intros Hpk. unfold new_at. rewrite decide_False; [done|]. naive_solver. Qed.

(** A slot depends on the target up to its own offset only. *)
Lemma slot_after_take (target : str) (bank : list str) (m c k : nat) :
  k ≤ m →
  slot_after (take m target) bank c k = slot_after target bank c k.
Proof.
  revert k. induction c as [|c IH]; intros k Hk; simpl; [done|].
  rewrite IH by done. f_equal. destruct (decide (c < k)) as [Hck|Hck].
  - rewrite IH by lia. unfold new_at. by rewrite slice_take.
  - by rewrite !new_at_not_below.
Qed.

Lemma slot_after_prefix_of (target : str) (bank : list str) (c c' k : nat) :
  c ≤ c' →
  slot_after target bank c k `prefix_of` slot_after target bank c' k.
Proof.
  induction 1 as [|c' Hcc IH]; [done|]. simpl. by apply prefix_app_r.
Qed.

Lemma length_new_at (target : str) (words : list str) (p k : nat)
  (combos : list combination) :
  length (new_at target words p k combos)
  = if decide (p < k ∧ slice target p k ∈ words) then length combos else 0.
Proof. unfold new_at. case_decide; [apply length_fmap | done]. Qed.

Lemma length_slot_after (target : str) (bank : list str) (c k : nat) :
  length (slot_after target bank c k)
  = (if decide (k = 0) then 1 else 0)
    + sum_list ((λ p, if decide (p < k ∧ slice target p k ∈ bank)
                      then length (slot_after target bank p p) else 0)
                <$> seq 0 c).
Proof.
  induction c as [|c IH].
  - simpl. case_decide; simpl; lia.
  - rewrite seq_S, fmap_app, sum_list_with_app. simpl.
    rewrite length_app, IH, length_new_at. lia.
Qed.

Lemma slot_after_size (target : str) (bank : list str) (c k : nat) :
  1 ≤ k → 2 * length (slot_after target bank c k) ≤ 2 ^ c.
Proof.
  revert k. induction c as [|c IH]; intros k Hk; simpl.
  - rewrite decide_False by lia. simpl. lia.
  - rewrite length_app, length_new_at.
    pose proof (IH k Hk) as Hleft. case_decide; [|lia].
    destruct c as [|c]; [simpl in *; lia|].
    pose proof (IH (S c) ltac:(lia)) as Hright. lia.
Qed.

Section finished_table.

Variable set_iter : list str → list str.
Hypothesis set_iter_perm : set_order set_iter.

Variable target : str.
Variable word_bank : list str.
Hypothesis bank_valid : valid_bank word_bank.

(** The table the loop leaves when it ends. *)
Lemma final_table (dp : table) :
  fill_table set_iter (build_word_positions target word_bank)
    (seq 0 (length target)) (init_table (length target)) = Ok dp →
  ∀ k, k ≤ length target →
       dp !! k = Some (slot_after target word_bank k k).
Proof.
  intros Hfill k Hk.
  rewrite fill_table_after in Hfill by done. injection Hfill as <-.
  unfold table_after. rewrite lookup_fmap_seq by lia.
  by rewrite slot_after_ge.
Qed.

(** The table holds the results of the prefixes: once the loop has ended,
    slot [k] is, combination by combination and up to the reversal, what
    the call on [target[0:k]] returns. *)
Theorem table_holds_prefix_results (k : nat) :
  1 ≤ k → k ≤ length target →
  ∃ dp slot,
    fill_table set_iter (build_word_positions target word_bank)
      (seq 0 (length target)) (init_table (length target)) = Ok dp
    ∧ dp !! k = Some slot
    ∧ call set_iter (slice target 0 k) word_bank = Ok (reverse <$> slot).
Proof.
  intros Hk1 Hk. do 2 eexists. split_and!.
  - by apply fill_table_after.
  - unfold table_after. by rewrite lookup_fmap_seq by lia.
  - unfold slice. rewrite Nat.sub_0_r, drop_0.
    assert (length (take k target) = k) as Hlen by by apply length_take_le.
    rewrite call_closed; [|done| |done].
    + by rewrite Hlen, slot_after_take, (slot_after_ge _ _ (length target)).
    + intros Hnil. rewrite Hnil in Hlen. simpl in Hlen. lia.
Qed.

(** The loop writes forward only: the slots up to the position it has
    reached are never touched again. *)
Theorem slots_final (c c' : nat) (dp dp' : table) :
  c ≤ c' → c' ≤ length target →
  fill_table set_iter (build_word_positions target word_bank) (seq 0 c)
    (init_table (length target)) = Ok dp →
  fill_table set_iter (build_word_positions target word_bank) (seq 0 c')
    (init_table (length target)) = Ok dp' →
  ∀ k, k ≤ c → dp' !! k = dp !! k.
Proof.
  intros Hcc Hc' Hfill Hfill' k Hk.
  rewrite fill_table_after in Hfill by (done || lia).
  rewrite fill_table_after in Hfill' by done.
  injection Hfill as <-. injection Hfill' as <-.
  unfold table_after. rewrite !lookup_fmap_seq by lia.
  by rewrite (slot_after_ge _ _ c), (slot_after_ge _ _ c') by lia.
Qed.

(** Counting without listing: the number of combinations of slot [k] is
    the sum, over the offsets [p] below [k] for which [target[p:k]] is a
    word of the bank, of the numbers of combinations of the slots [p]. *)
Theorem slot_count_recurrence (dp : table) (k : nat) :
  fill_table set_iter (build_word_positions target word_bank)
    (seq 0 (length target)) (init_table (length target)) = Ok dp →
  1 ≤ k → k ≤ length target →
  length (default [] (dp !! k))
  = sum_list ((λ p, if decide (slice target p k ∈ word_bank)
                    then length (default [] (dp !! p)) else 0)
              <$> seq 0 k).
Proof.
  intros Hfill Hk1 Hk. rewrite (final_table dp Hfill k Hk). simpl.
  rewrite length_slot_after, decide_False by lia. simpl. f_equal.
  apply list_fmap_ext. intros _ p Hp%list_elem_of_lookup_2%elem_of_seq.
  rewrite (final_table dp Hfill p) by lia. simpl.
  apply decide_ext. naive_solver lia.
Qed.

End finished_table.

Lemma table_holds_prefix_results_witness :
  set_order id ∧ valid_bank [py "a"; py "b"; py "ab"] ∧ 1 ≤ 2
  ∧ 2 ≤ length (py "abab")
  ∧ ∃ dp slot,
      fill_table id (build_word_positions (py "abab") [py "a"; py "b"; py "ab"])
        (seq 0 (length (py "abab"))) (init_table (length (py "abab"))) = Ok dp
      ∧ dp !! 2 = Some slot
      ∧ call id (slice (py "abab") 0 2) [py "a"; py "b"; py "ab"]
        = Ok (reverse <$> slot).
Proof.
  assert (set_order id) as Hiter by exact set_order_id.
  assert (valid_bank [py "a"; py "b"; py "ab"]) as Hwb
    by (repeat constructor; done).
  assert (1 ≤ 2) as Hk1 by lia.
  assert (2 ≤ length (py "abab")) as Hk by (simpl; lia).
  split_and!; [done..|].
  exact (table_holds_prefix_results id Hiter (py "abab") _ Hwb 2 Hk1 Hk).
Defined.

Lemma slots_final_witness :
  set_order id ∧ valid_bank [py "a"; py "b"; py "ab"]
  ∧ ∀ k, k ≤ 1 →
      [[[]]; [[py "a"]]; [[py "ab"]; [py "b"; py "a"]]] !! k
      = [[[]]; [[py "a"]]; [[py "ab"]]] !! k.
Proof.
  assert (set_order id) as Hiter by exact set_order_id.
  assert (valid_bank [py "a"; py "b"; py "ab"]) as Hwb
    by (repeat constructor; done).
  split_and!; [done..|].
  apply (slots_final id Hiter (py "ab") [py "a"; py "b"; py "ab"] Hwb 1 2);
    [lia | simpl; lia | reflexivity | reflexivity].
Defined.

Lemma slot_count_recurrence_witness :
  set_order id ∧ valid_bank [py "a"; py "aa"]
  ∧ length (default [] ([[[]]; [[py "a"]]; [[py "aa"]; [py "a"; py "a"]];
       [[py "aa"; py "a"]; [py "a"; py "aa"]; [py "a"; py "a"; py "a"]]]
                        !! 3))
    = sum_list ((λ p, if decide (slice (py "aaa") p 3 ∈ [py "a"; py "aa"])
                      then length (default []
                        ([[[]]; [[py "a"]]; [[py "aa"]; [py "a"; py "a"]];
       [[py "aa"; py "a"]; [py "a"; py "aa"]; [py "a"; py "a"; py "a"]]]
                           !! p)) else 0)
                <$> seq 0 3).
Proof.
  assert (set_order id) as Hiter by exact set_order_id.
  assert (valid_bank [py "a"; py "aa"]) as Hwb by (repeat constructor; done).
  split_and!; [done..|].
  apply (slot_count_recurrence id Hiter (py "aaa") [py "a"; py "aa"] Hwb);
    [reflexivity | lia | simpl; lia].
Defined.

(** ** Further properties: the size and the head of the result *)

(** The result is never larger than the number of ways of cutting the
    target into pieces: at most [2 ^ (len(target) - 1)] combinations. *)
Theorem all_construct_size_bound (set_iter : list str → list str)
  (target : str) (word_bank : list str) :
  set_order set_iter → valid_target target → valid_bank word_bank →
  ∃ r, call set_iter target word_bank = Ok r
       ∧ length r ≤ 2 ^ (length target - 1).
Proof.
  intros Hiter Ht Hwb. eexists. split; [by apply call_closed|].
  rewrite length_fmap.
  assert (1 ≤ length target) as Hn by (destruct target; [done | simpl; lia]).
  pose proof (slot_after_size target word_bank (length target)
                (length target) Hn) as Hsize.
  replace (length target) with (S (length target - 1)) in Hsize at 3 by lia.
  rewrite Nat.pow_succ_r' in Hsize. lia.
Qed.

Lemma all_construct_size_bound_witness :
  set_order id ∧ valid_target (py "aaa")
  ∧ valid_bank [py "a"; py "aa"; py "aaa"]
  ∧ ∃ r, call id (py "aaa") [py "a"; py "aa"; py "aaa"] = Ok r
         ∧ length r ≤ 2 ^ (length (py "aaa") - 1).
Proof.
  assert (set_order id) as Hiter by exact set_order_id.
  assert (valid_target (py "aaa")) as Ht by done.
  assert (valid_bank [py "a"; py "aa"; py "aaa"]) as Hwb
    by (repeat constructor; done).
  split_and!; [done..|].
  exact (all_construct_size_bound id _ _ Hiter Ht Hwb).
Defined.

(** The bound is reached: the three letters of "aaa" can be cut in four
    ways, and with every run of "a" in the bank all four come out. *)
Example size_bound_reached :
  call id (py "aaa") [py "a"; py "aa"; py "aaa"]
  = Ok [[py "aaa"]; [py "a"; py "aa"]; [py "aa"; py "a"];
        [py "a"; py "a"; py "a"]].
Proof. reflexivity. Qed.

(** When the target is itself a word of the bank, the combination made of
    that word alone is the first of the result. *)
Theorem all_construct_whole_word_first (set_iter : list str → list str)
  (target : str) (word_bank : list str) :
  set_order set_iter → valid_target target → valid_bank word_bank →
  target ∈ word_bank →
  ∃ others, call set_iter target word_bank = Ok ([target] :: others).
Proof.
  intros Hiter Ht Hwb Hin.
  assert (1 ≤ length target) as Hn by (destruct target; [done | simpl; lia]).
  destruct (slot_after_prefix_of target word_bank 1 (length target)
              (length target) Hn) as [others Hothers].
  exists (reverse <$> others). rewrite call_closed, Hothers by done.
  f_equal. simpl. rewrite decide_False by lia. simpl.
  assert (slice target 0 (length target) = target) as Hwhole.
  { unfold slice. by rewrite Nat.sub_0_r, drop_0, take_ge. }
  unfold new_at. rewrite Hwhole. by rewrite decide_True by (split; [lia|done]).
Qed.

Lemma all_construct_whole_word_first_witness :
  set_order id ∧ valid_target (py "ab") ∧ valid_bank [py "a"; py "b"; py "ab"]
  ∧ py "ab" ∈ [py "a"; py "b"; py "ab"]
  ∧ ∃ others,
      call id (py "ab") [py "a"; py "b"; py "ab"] = Ok ([py "ab"] :: others).
Proof.
  assert (set_order id) as Hiter by exact set_order_id.
  assert (valid_target (py "ab")) as Ht by done.
  assert (valid_bank [py "a"; py "b"; py "ab"]) as Hwb
    by (repeat constructor; done).
  assert (py "ab" ∈ [py "a"; py "b"; py "ab"]) as Hin
    by (do 2 right; left).
  split_and!; [done..|].
  exact (all_construct_whole_word_first id _ _ Hiter Ht Hwb Hin).
Defined.

(** ** Further properties: changing the bank *)

Lemma slot_after_sublist (target : str) (bank1 bank2 : list str) (c k : nat) :
  (∀ w, w ∈ bank1 → w ∈ bank2) →
  slot_after target bank1 c k `sublist_of` slot_after target bank2 c k.
Proof.
  intros Hsub. revert k. induction c as [|c IH]; intros k; simpl; [done|].
  apply sublist_app; [apply IH|]. unfold new_at.
  destruct (decide (c < k ∧ slice target c k ∈ bank1)) as [[Hck Hin]|Hno].
  - rewrite decide_True by (split; [done | by apply Hsub]).
    apply fmap_sublist, IH.
  - apply sublist_nil_l.
Qed.

(** More words, more combinations: with a larger bank no combination is
    lost, and those there were keep their order. *)
Theorem all_construct_bank_grows (set_iter : list str → list str)
  (target : str) (word_bank1 word_bank2 : list str) :
  set_order set_iter → valid_target target →
  valid_bank word_bank1 → valid_bank word_bank2 →
  (∀ w, w ∈ word_bank1 → w ∈ word_bank2) →
  ∃ r1 r2, call set_iter target word_bank1 = Ok r1
           ∧ call set_iter target word_bank2 = Ok r2
           ∧ r1 `sublist_of` r2.
Proof.
  intros Hiter Ht Hwb1 Hwb2 Hsub. do 2 eexists.
  split_and!; [by apply call_closed..|].
  by apply fmap_sublist, slot_after_sublist.
Qed.

Lemma all_construct_bank_grows_witness :
  set_order id ∧ valid_target (py "ab")
  ∧ valid_bank [py "b"; py "a"] ∧ valid_bank [py "a"; py "ab"; py "b"]
  ∧ ∃ r1 r2, call id (py "ab") [py "b"; py "a"] = Ok r1
             ∧ call id (py "ab") [py "a"; py "ab"; py "b"] = Ok r2
             ∧ r1 `sublist_of` r2.
Proof.
  assert (set_order id) as Hiter by exact set_order_id.
  assert (valid_target (py "ab")) as Ht by done.
  assert (valid_bank [py "b"; py "a"]) as Hwb1 by (repeat constructor; done).
  assert (valid_bank [py "a"; py "ab"; py "b"]) as Hwb2
    by (repeat constructor; done).
  split_and!; [done..|].
  apply (all_construct_bank_grows id _ _ _ Hiter Ht Hwb1 Hwb2).
  intros w. rewrite !elem_of_cons, !elem_of_nil. tauto.
Defined.

Lemma slot_after_ext_slices (target : str) (bank1 bank2 : list str)
  (c k : nat) :
  (∀ p q, p < q → q ≤ length target →
          slice target p q ∈ bank1 ↔ slice target p q ∈ bank2) →
  k ≤ length target →
  slot_after target bank1 c k = slot_after target bank2 c k.
Proof.
  intros Hsame. revert k. induction c as [|c IH]; intros k Hk; simpl; [done|].
  rewrite IH by done. f_equal. destruct (decide (c < k)) as [Hck|Hck].
  - rewrite IH by lia. apply new_at_ext. intros _. by apply Hsame.
  - by rewrite !new_at_not_below.
Qed.

(** Only the words that occur in the target count: two banks that hold
    the same words among those that occur somewhere in the target give the
    same result, so that words that occur nowhere can be added or dropped
    freely. *)
Theorem all_construct_absent_words (set_iter : list str → list str)
  (target : str) (word_bank1 word_bank2 : list str) :
  set_order set_iter → valid_target target →
  valid_bank word_bank1 → valid_bank word_bank2 →
  (∀ w i, matches_at target i w → w ∈ word_bank1 ↔ w ∈ word_bank2) →
  call set_iter target word_bank1 = call set_iter target word_bank2.
Proof.
  intros Hiter Ht Hwb1 Hwb2 Hsame. rewrite !call_closed by done.
  do 2 f_equal. apply slot_after_ext_slices; [|done].
  intros p q Hpq Hq. apply (Hsame _ p). unfold matches_at.
  rewrite slice_length by lia. replace (p + (q - p)) with q by lia. done.
Qed.

Lemma all_construct_absent_words_witness :
  set_order id ∧ valid_target (py "ab")
  ∧ valid_bank [py "a"; py "b"] ∧ valid_bank [py "ba"; py "b"; py "abc"; py "a"]
  ∧ call id (py "ab") [py "a"; py "b"]
    = call id (py "ab") [py "ba"; py "b"; py "abc"; py "a"].
Proof.
  assert (set_order id) as Hiter by exact set_order_id.
  assert (valid_target (py "ab")) as Ht by done.
  assert (valid_bank [py "a"; py "b"]) as Hwb1 by (repeat constructor; done).
  assert (valid_bank [py "ba"; py "b"; py "abc"; py "a"]) as Hwb2
    by (repeat constructor; done).
  split_and!; [done..|].
  apply (all_construct_absent_words id _ _ _ Hiter Ht Hwb1 Hwb2).
  intros w i [Hfit Hm]. rewrite !elem_of_cons, !elem_of_nil.
  assert (w ≠ py "ba" ∧ w ≠ py "abc") as [Hba Habc]; [|tauto].
  split; intros ->; simpl in Hfit;
    (destruct i as [|[|i]]; [discriminate Hm | discriminate Hm || lia | lia]).
Defined.

(** ** Further properties: the position index *)

Lemma set_add_nonempty (w : str) (s : list str) : set_add w s ≠ [].
Proof.
  unfold set_add. case_decide as Hin.
  - intros ->. by apply elem_of_nil in Hin.
  - by destruct s.
Qed.

(** What holds of the empty index and is kept by every
    [setdefault(i, set()).add(word)] holds of the index. *)
Lemma build_word_positions_ind (P : gmap nat (list str) → Prop)
  (target : str) (bank : list str) :
  P ∅ → (∀ wp i w, P wp → P (setdefault_add wp i w)) →
  P (build_word_positions target bank).
Proof.
  intros Hempty Hadd. unfold build_word_positions.
  generalize (∅ : gmap nat (list str)) Hempty.
  induction bank as [|word bank IH]; intros wp Hwp; simpl; [done|].
  apply IH. unfold index_word. generalize (scan_offsets target word).
  intros os. revert wp Hwp.
  induction os as [|i os IHos]; intros wp Hwp; simpl; [done|].
  apply IHos. case_decide; [by apply Hadd | done].
Qed.

(** The index has an entry exactly at the offsets where a word of the
    bank occurs; an entry is never the empty set, holds no word twice and
    holds the words of the bank that occur at its offset; with a valid
    bank the offsets with an entry are positions of the target. *)
Theorem word_positions_entries (target : str) (word_bank : list str) (i : nat) :
  (is_Some (build_word_positions target word_bank !! i)
   ↔ ∃ w, w ∈ word_bank ∧ matches_at target i w)
  ∧ (∀ s, build_word_positions target word_bank !! i = Some s →
          s ≠ [] ∧ NoDup s
          ∧ ∀ w, w ∈ s ↔ w ∈ word_bank ∧ matches_at target i w)
  ∧ (valid_bank word_bank →
     is_Some (build_word_positions target word_bank !! i) →
     i < length target).
Proof.
  assert (∀ s, build_word_positions target word_bank !! i = Some s →
               s ≠ [] ∧ NoDup s
               ∧ ∀ w, w ∈ s ↔ w ∈ word_bank ∧ matches_at target i w)
    as Hentry.
  { intros s Hs. split_and!.
    - revert i s Hs.
      apply (build_word_positions_ind
               (λ wp, ∀ i s, wp !! i = Some s → s ≠ [])).
      + intros i s Hs. by rewrite lookup_empty in Hs.
      + intros wp j w Hwp i s. unfold setdefault_add.
        destruct (decide (j = i)) as [->|Hne].
        * rewrite lookup_insert_eq. intros [= <-]. apply set_add_nonempty.
        * rewrite lookup_insert_ne by done. apply Hwp.
    - pose proof (build_word_positions_NoDup target word_bank i) as Hnd.
      by rewrite Hs in Hnd.
    - intros w.
      pose proof (build_word_positions_lookup target word_bank i w) as Hin.
      by rewrite Hs in Hin. }
  assert (is_Some (build_word_positions target word_bank !! i)
          ↔ ∃ w, w ∈ word_bank ∧ matches_at target i w) as Hkey.
  { split.
    - intros [s Hs]. destruct (Hentry s Hs) as (Hne & _ & Hin).
      destruct s as [|w s]; [done|]. exists w. apply Hin. by left.
    - intros (w & Hw).
      apply build_word_positions_lookup in Hw.
      destruct (build_word_positions target word_bank !! i) as [s|];
        [by eexists|]. by apply elem_of_nil in Hw. }
  split_and!; [done..|].
  intros Hwb (w & Hw & Hfit & _)%Hkey.
  assert (w ≠ []) as Hne by by apply (proj1 (Forall_forall _ _) Hwb).
  destruct w; [done|]. simpl in Hfit. lia.
Qed.

Lemma word_positions_entries_witness :
  valid_bank [py "b"; py "ab"; py "b"]
  ∧ is_Some (build_word_positions (py "abb") [py "b"; py "ab"; py "b"] !! 1)
  ∧ 1 < length (py "abb").
Proof.
  assert (valid_bank [py "b"; py "ab"; py "b"]) as Hwb
    by (repeat constructor; done).
  assert (is_Some
            (build_word_positions (py "abb") [py "b"; py "ab"; py "b"] !! 1))
    as Hkey by (by eexists).
  split_and!; [done..|].
  exact (proj2 (proj2 (word_positions_entries (py "abb") _ 1)) Hwb Hkey).
Defined.

(** ** The calls of the [__main__] block *)

Example main_prints :
  main id
  = [ Ok [[py "jwa"; py "j"; py "a"; py "lapa"];
          [py "j"; py "w"; py "a"; py "j"; py "a"; py "lapa"]];
      Ok [[py "raj"; py "amat"; py "i"]; [py "raja"; py "ma"; py "t"; py "i"]];
      Ok [[py "hex"; py "ago"; py "no"; py "s"; py "auru"; py "s"];
          [py "h"; py "ex"; py "ago"; py "no"; py "s"; py "auru"; py "s"];
          [py "hex"; py "ag"; py "o"; py "no"; py "s"; py "auru"; py "s"];
          [py "h"; py "ex"; py "ag"; py "o"; py "no"; py "s"; py "auru";
           py "s"]] ].
Proof. vm_compute. reflexivity. Qed.

Lemma main_any_order (set_iter : list str → list str) :
  set_order set_iter → main set_iter = main id.
Proof.
  intros Hiter. unfold main.
  rewrite !(call_closed set_iter), !(call_closed id);
    (done || apply set_order_id || (repeat constructor; done)).
Qed.

(** ** Further properties: the positions the loop skips *)

(** The test that skips a position whose slot is empty is a shortcut and
    nothing more: the words of such a position, run through the body of
    the inner loop, leave the table as it is. *)
Theorem skipped_position_adds_nothing (current_pos : nat) (words : list str)
  (dp : table) :
  dp !! current_pos = Some [] →
  Forall (λ word, current_pos + length word < length dp) words →
  for_each (fill_word current_pos) words dp = Ok dp.
Proof.
  intros Hslot. induction 1 as [|w ws Hw _ IH]; simpl; [done|].
  assert (fill_word current_pos dp w = Ok dp) as ->; [|exact IH].
  unfold fill_word, table_extend, table_get. rewrite Hslot. simpl.
  destruct (lookup_lt_is_Some_2 dp (current_pos + length w) Hw)
    as [old Hold].
  rewrite Hold. simpl. rewrite app_nil_r. f_equal.
  by apply list_insert_id.
Qed.

Lemma skipped_position_adds_nothing_witness :
  [[[]]; []; [[py "ab"]]; []] !! 1 = Some []
  ∧ Forall (λ word, 1 + length word < length [[[]]; []; [[py "ab"]]; []])
      [py "b"; py "bc"]
  ∧ for_each (fill_word 1) [py "b"; py "bc"] [[[]]; []; [[py "ab"]]; []]
    = Ok [[[]]; []; [[py "ab"]]; []].
Proof.
  assert ([[[]]; []; [[py "ab"]]; []] !! 1 = Some []) as Hslot by done.
  assert (Forall (λ word, 1 + length word
                          < length [[[]]; []; [[py "ab"]]; []])
            [py "b"; py "bc"]) as Hfit
    by (repeat constructor; simpl; lia).
  split_and!; [done..|].
  exact (skipped_position_adds_nothing 1 _ _ Hslot Hfit).
Defined.

(** ** Further properties: the target read backwards *)

Lemma concat_mirror (D : combination) :
  concat (reverse (reverse <$> D)) = reverse (concat D).
Proof.
  induction D as [|w D IH]; [done|].
  rewrite fmap_cons, reverse_cons, concat_app, IH.
  change (concat (w :: D)) with (w ++ concat D). rewrite reverse_app.
  f_equal. simpl. apply app_nil_r.
Qed.

Lemma mirror_involutive (D : combination) :
  reverse (reverse <$> reverse (reverse <$> D)) = D.
Proof.
  rewrite fmap_reverse, reverse_involutive, <-list_fmap_compose.
  rewrite <-(list_fmap_id D) at 2. apply list_fmap_ext.
  intros _ w _. simpl. apply reverse_involutive.
Qed.

(** Reading everything backwards changes nothing but the direction: the
    combinations for the reversed target with the reversed words are the
    combinations for the target, each read backwards. *)
Theorem all_construct_mirror (set_iter : list str → list str)
  (target : str) (word_bank : list str) :
  set_order set_iter → valid_target target → valid_bank word_bank →
  ∃ r r', call set_iter target word_bank = Ok r
          ∧ call set_iter (reverse target) (reverse <$> word_bank) = Ok r'
          ∧ (∀ D, D ∈ r ↔ reverse (reverse <$> D) ∈ r')
          ∧ (∀ D', D' ∈ r' ↔ reverse (reverse <$> D') ∈ r).
Proof.
  intros Hiter Ht Hwb.
  assert (valid_target (reverse target)) as Ht'.
  { intros Hnil. apply Ht. apply (f_equal reverse) in Hnil.
    by rewrite reverse_involutive in Hnil. }
  assert (valid_bank (reverse <$> word_bank)) as Hwb'.
  { apply Forall_fmap. eapply Forall_impl; [exact Hwb|]. simpl.
    intros w Hw Hnil. apply Hw. apply (f_equal reverse) in Hnil.
    by rewrite reverse_involutive in Hnil. }
  do 2 eexists. split; [by apply call_closed|].
  split; [by apply call_closed|].
  match goal with |- ?P ∧ _ => assert P as Hmirror end;
    [|split; [exact Hmirror|]; intros D';
      by rewrite (Hmirror (reverse (reverse <$> D'))), mirror_involutive].
  intros D.
  rewrite (call_elem_of set_iter target word_bank D) by done.
  rewrite (call_elem_of set_iter (reverse target) (reverse <$> word_bank))
    by done.
  rewrite concat_mirror, Forall_reverse, Forall_fmap. split.
  - intros [<- Hall]. split; [done|].
    eapply Forall_impl; [exact Hall|]. simpl. intros w Hw.
    by apply list_elem_of_fmap_2.
  - intros [Hcat Hall]. split.
    + apply (f_equal reverse) in Hcat. by rewrite !reverse_involutive in Hcat.
    + eapply Forall_impl; [exact Hall|]. simpl.
      intros w (w' & Heq & Hw')%list_elem_of_fmap.
      apply (f_equal reverse) in Heq. rewrite !reverse_involutive in Heq.
      by subst.
Qed.

Lemma all_construct_mirror_witness :
  set_order id ∧ valid_target (py "abc") ∧ valid_bank [py "ab"; py "c"; py "a"]
  ∧ ∃ r r', call id (py "abc") [py "ab"; py "c"; py "a"] = Ok r
            ∧ call id (reverse (py "abc")) (reverse <$> [py "ab"; py "c"; py "a"])
              = Ok r'
            ∧ (∀ D, D ∈ r ↔ reverse (reverse <$> D) ∈ r')
            ∧ (∀ D', D' ∈ r' ↔ reverse (reverse <$> D') ∈ r).
Proof.
  assert (set_order id) as Hiter by exact set_order_id.
  assert (valid_target (py "abc")) as Ht by done.
  assert (valid_bank [py "ab"; py "c"; py "a"]) as Hwb
    by (repeat constructor; done).
  split_and!; [done..|].
  exact (all_construct_mirror id _ _ Hiter Ht Hwb).
Defined.
